(** * The mixin merge engine of [packages/min/src/mixin.ts]

    A shallow embedding of the page/mixin merge: the function composer
    [compose], the collectors [getMixinData] and [getMixinMethods], the
    mergers [mixData] and [mixMethods], the [OnLoad] sequencer and the
    default export, followed by the properties proved about them.

    Modelling conventions.
    - An object is a plain object: the finite map of its own properties,
      with [Object.prototype] as its prototype.  The engine reads two
      properties under names it does not choose, in the tests
      [nativeData[key] !== undefined] and [pageConf[key] == null]; these
      reads go through the prototype chain ([reads_undefined],
      [reads_nullish]).  Every other read is of an own property or under a
      fixed name that [Object.prototype] does not define.
    - Plain objects and arrays live in a store and are referred to by
      address ([VObj], [VArr]), so that aliasing and in-place updates
      ([nativeData[key] = ...], [push], [reverse]) are visible.  The two
      accumulators named [ret] in the collectors are never aliased and are
      kept as maps.
    - Functions supplied by the page or by a mixin are opaque: [FUser id]
      is interpreted by a parameter [user_fn] acting on a state [W] of its
      own, and a function has no enumerable property of its own.  The
      functions created by the engine ([noop], [OnLoad#onLoad] and the
      lifecycle dispatcher closure) are interpreted by [call].
    - A merge function returns [None] where the source throws a TypeError
      (a property read on [null] or [undefined], [Object.keys(null)],
      [mixins.forEach] on a value that has no such method) and on the
      inputs that are outside the model: an address that is not allocated,
      a [mixins] object that defines [forEach] itself, and a page [data]
      that is truthy but not an object. *)

From stdpp Require Import gmap strings list fin_maps pretty.
From Stdlib Require Import ZArith.

(** ** Values and the store *)

Abbreviation loc := nat.

Inductive func :=
  | FUser (id : nat)        (* a function written by the page or a mixin *)
  | FNoop                   (* [const noop = function () {}] *)
  | FOnLoad                 (* [new OnLoad().onLoad] *)
  | FDispatcher (l : loc).  (* the closure of [mixMethods] over [methodsList] *)

Inductive value :=
  | VUndefined
  | VNull
  | VBool (b : bool)
  | VNum (n : Z)
  | VStr (s : string)
  | VFun (f : func)
  | VObj (l : loc)
  | VArr (l : loc).

#[global] Instance func_eq_dec : EqDecision func.
Proof. solve_decision. Defined.

#[global] Instance value_eq_dec : EqDecision value.
Proof. solve_decision. Defined.

#[global] Instance value_inhabited : Inhabited value := populate VUndefined.

(** [interface Data] and [interface Methods]: string-keyed objects. *)
Abbreviation Data := (gmap string value).
Abbreviation Methods := (gmap string value).

Record heap := Heap {
  objs : list (gmap string value);
  arrs : list (list value)
}.

(** [o[k]] on an object. *)
Definition get (o : gmap string value) (k : string) : value :=
  default VUndefined (o !! k).

Definition obj_at (h : heap) (v : value) : option (gmap string value) :=
  match v with VObj l => objs h !! l | _ => None end.

Definition arr_at (h : heap) (v : value) : option (list value) :=
  match v with VArr l => arrs h !! l | _ => None end.

(** An object or array literal: a new cell at the end of the store. *)
Definition alloc_obj (o : gmap string value) (h : heap) : value * heap :=
  (VObj (length (objs h)), Heap (objs h ++ [o]) (arrs h)).

Definition alloc_arr (es : list value) (h : heap) : value * heap :=
  (VArr (length (arrs h)), Heap (objs h) (arrs h ++ [es])).

Definition set_obj (l : loc) (o : gmap string value) (h : heap) : heap :=
  Heap (<[l := o]> (objs h)) (arrs h).

Definition set_arr (l : loc) (es : list value) (h : heap) : heap :=
  Heap (objs h) (<[l := es]> (arrs h)).

(** [const isFunction = (v) => typeof v === 'function'] *)
Definition isFunction (v : value) : bool :=
  match v with VFun _ => true | _ => false end.

(** [const isArray = (v) => Array.isArray(v)] *)
Definition isArray (h : heap) (v : value) : bool :=
  bool_decide (is_Some (arr_at h v)).

(** Truthiness, as used by [||]. *)
Definition truthy (v : value) : bool :=
  match v with
  | VUndefined | VNull => false
  | VBool b => b
  | VNum n => negb (n =? 0)%Z
  | VStr s => negb (String.eqb s "")
  | VFun _ | VObj _ | VArr _ => true
  end.

(** [v == null] *)
Definition is_nullish (v : value) : bool :=
  match v with VUndefined | VNull => true | _ => false end.

(** The default of a destructuring pattern [{ k = d }]. *)
Definition or_default (v d : value) : value :=
  match v with VUndefined => d | _ => v end.

(** The names a plain object inherits from [Object.prototype]. *)
Definition OBJECT_PROTOTYPE : list string :=
  ["constructor"; "hasOwnProperty"; "isPrototypeOf"; "propertyIsEnumerable";
   "toLocaleString"; "toString"; "valueOf"; "__proto__";
   "__defineGetter__"; "__defineSetter__"; "__lookupGetter__";
   "__lookupSetter__"].

(** [o[k]] is found on the prototype: [o] has no property [k] of its own
    and [Object.prototype] has one. *)
Definition inherited (o : gmap string value) (k : string) : bool :=
  bool_decide (o !! k = None) && bool_decide (k ∈ OBJECT_PROTOTYPE).

(** [o[k] === undefined] and [o[k] == null] on a plain object.  What
    [Object.prototype] holds under its names (functions, and under
    [__proto__] the prototype itself) is neither [undefined] nor [null]. *)
Definition reads_undefined (o : gmap string value) (k : string) : bool :=
  negb (inherited o k) && bool_decide (get o k = VUndefined).

Definition reads_nullish (o : gmap string value) (k : string) : bool :=
  negb (inherited o k) && is_nullish (get o k).

Definition PAGE_EVENT : list string :=
  ["onLoad"; "onReady"; "onShow"; "onHide"; "onUnload";
   "onPullDownRefresh"; "onReachBottom"; "onShareAppMessage"].

Definition APP_EVENT : list string :=
  ["onLaunch"; "onShow"; "onHide"; "onError"].

(** [xs.forEach(x => ...)] with the state the callback updates made
    explicit; the callback fails where the source would throw. *)
Fixpoint forEach {A S : Type} (f : S → A → option S) (xs : list A) (s : S)
  : option S :=
  match xs with
  | [] => Some s
  | x :: xs => s' ← f s x; forEach f xs s'
  end.

(** ** The collectors *)

(** The properties a value answers the reads [mixin.data],
    [mixin.methods] and [mixin[key]] (for a lifecycle name) from: those of
    an object; none for a primitive, a function or an array, which have no
    property under these names; reading a property of [null] or
    [undefined] throws. *)
Definition props_of (h : heap) (v : value) : option (gmap string value) :=
  match v with
  | VUndefined | VNull => None
  | VObj l => objs h !! l
  | VBool _ | VNum _ | VStr _ | VFun _ | VArr _ => Some ∅
  end.

(** The indexed properties of an array or of a string: ["0"], ["1"], ... *)
Definition index_props (es : list value) : gmap string value :=
  list_to_map (imap (λ i v, (pretty i, v)) es).

Fixpoint chars (s : string) : list value :=
  match s with
  | EmptyString => []
  | String c s => VStr (String c EmptyString) :: chars s
  end.

(** [Object.keys(v)] with the value [v[key]] of each key: the own
    enumerable properties of [v].  [Object.keys] throws on [null] and
    [undefined], and converts any other primitive to an object first. *)
Definition own_props (h : heap) (v : value) : option (gmap string value) :=
  match v with
  | VUndefined | VNull => None
  | VObj l => objs h !! l
  | VArr l => index_props <$> arrs h !! l
  | VStr s => Some (index_props (chars s))
  | VBool _ | VNum _ | VFun _ => Some ∅
  end.

(** [let { k = {} } = mixin], followed by [Object.keys] on the result:
    the default replaces [undefined] only. *)
Definition field_or_empty (h : heap) (mixin : gmap string value) (k : string)
  : option (gmap string value) :=
  match get mixin k with
  | VUndefined => Some ∅
  | v => own_props h v
  end.

(** [Object.keys(data).forEach(key => { ret[key] = data[key] })] *)
Definition copy_keys (data ret : gmap string value) : gmap string value :=
  map_fold (λ key v ret, <[key := v]> ret) ret data.

(** The callback of [mixins.forEach] in [getMixinData]. *)
Definition copy_from (h : heap) (ret : gmap string value) (mixin : value)
  : option (gmap string value) :=
  m ← props_of h mixin;
  data ← field_or_empty h m "data";
  Some (copy_keys data ret).

Definition getMixinData (h : heap) (mixins : list value) : option Data :=
  forEach (copy_from h) mixins ∅.

(** The first loop of [getMixinMethods], over [Object.keys(methods)]. *)
Definition collect_methods (methods ret : gmap string value)
  : gmap string value :=
  map_fold (λ key method ret,
      if negb (isFunction method) then ret
      else if decide (key = "onLoad") then ret
      else <[key := method]> ret)
    ret methods.

(** The body of the second loop, over [PAGE_EVENT]. *)
Definition collect_lifecycle (mixin : gmap string value)
    (st : gmap string value * heap) (key : string)
  : gmap string value * heap :=
  let method := get mixin key in
  if negb (isFunction method) then st
  else if decide (key = "onLoad") then st
  else
    let value := get st.1 key in
    match arr_at st.2 value with
    | Some elems =>
        let '(a, h') := alloc_arr (elems ++ [method]) st.2 in
        (<[key := a]> st.1, h')
    | None =>
        let '(a, h') := alloc_arr [method] st.2 in
        (<[key := a]> st.1, h')
    end.

(** The callback of [mixins.forEach] in [getMixinMethods]. *)
Definition collect_from (st : gmap string value * heap) (mixin : value)
  : option (gmap string value * heap) :=
  m ← props_of st.2 mixin;
  methods ← field_or_empty st.2 m "methods";
  Some (foldl (collect_lifecycle m)
              (collect_methods methods st.1, st.2) PAGE_EVENT).

Definition getMixinMethods (h : heap) (mixins : list value)
  : option (Methods * heap) :=
  forEach collect_from mixins (∅, h).

(** ** The mergers *)

Definition mix_key (key : string) (v : value) (nativeData : gmap string value)
  : gmap string value :=
  if negb (reads_undefined nativeData key) then nativeData
  else <[key := v]> nativeData.

Definition mixData (mixinData : Data) (nativeData : value) (h : heap)
  : option (value * heap) :=
  match nativeData with
  | VObj l =>
      nd ← objs h !! l;
      Some (nativeData, set_obj l (map_fold mix_key nd mixinData) h)
  | _ => None
  end.

Definition mix_method (pageConf : loc) (key : string) (method : value)
    (acc : option heap) : option heap :=
  h ← acc;
  pc ← objs h !! pageConf;
  if decide (key ∈ PAGE_EVENT) then
    match method with
    | VArr l =>
        match arrs h !! l with
        | Some methodsList =>
            let h1 :=
              if isFunction (get pc key)
              then set_arr l (methodsList ++ [get pc key]) h
              else h in
            Some (set_obj pageConf (<[key := VFun (FDispatcher l)]> pc) h1)
        | None => Some h
        end
    | _ => Some h
    end
  else if reads_nullish pc key
       then Some (set_obj pageConf (<[key := method]> pc) h)
       else Some h.

Definition mixMethods (mixinMethods : Methods) (pageConf : loc) (h : heap)
  : option heap :=
  map_fold (mix_method pageConf) (Some h) mixinMethods.

(** [Object.assign(target, { k1: v1, ... })] *)
Definition assign (target : loc) (kvs : list (string * value)) (h : heap)
  : option heap :=
  o ← objs h !! target;
  Some (set_obj target (foldl (λ o kv, <[kv.1 := kv.2]> o) o kvs) h).

(** ** The entry point *)

(** Lines 196-214 of the default export: the destructuring with its
    defaults, the two collectors, and the [Object.assign] that installs
    [data], [onLoad] and the three hook slots. *)
Definition prepare (pageConf : loc) (h : heap) : option (Methods * heap) :=
  pc ← objs h !! pageConf;
  mixins ← match get pc "mixins" with
            | VUndefined => Some []
            | v => arr_at h v
            end;
  let onBeforeLoad := or_default (get pc "onBeforeLoad") (VFun FNoop) in
  let onAfterLoad := or_default (get pc "onAfterLoad") (VFun FNoop) in
  let onNativeLoad :=
    if truthy (get pc "onLoad") then get pc "onLoad" else VFun FNoop in
  let '(nativeData, h) :=
    if truthy (get pc "data") then (get pc "data", h) else alloc_obj ∅ h in
  mixinData ← getMixinData h mixins;
  '(mixinMethods, h) ← getMixinMethods h mixins;
  '(data, h) ← mixData mixinData nativeData h;
  h ← assign pageConf
        [("data", data); ("onLoad", VFun FOnLoad);
         ("onBeforeLoad", onBeforeLoad); ("onAfterLoad", onAfterLoad);
         ("onNativeLoad", onNativeLoad)] h;
  Some (mixinMethods, h).

(** [export default (pageConf) => ...]: [prepare], then line 216. *)
Definition default_export (pageConf : loc) (h : heap) : option heap :=
  '(mixinMethods, h) ← prepare pageConf h;
  mixMethods mixinMethods pageConf h.

(** ** Calling the functions of a merged page *)

Inductive result (A : Type) :=
  | Ok (a : A)          (* normal completion *)
  | Throw (e : value)   (* an exception propagates *)
  | Diverge.            (* the call depth bound was reached *)
Arguments Ok {A} a.
Arguments Throw {A} e.
Arguments Diverge {A}.

Definition TypeError : value := VStr "TypeError".

Section Invocation.
Context {W : Type}.

(** The meaning of the functions written by the user: receiver and
    arguments in, a completion out, acting on the user's own state. *)
Variable user_fn : nat → value → list value → W → result value * W.

Definition M (A : Type) : Type := heap * W → result A * (heap * W).

Definition pure {A} (a : A) : M A := λ s, (Ok a, s).

Definition throw {A} (e : value) : M A := λ s, (Throw e, s).

Definition andThen {A B} (m : M A) (k : A → M B) : M B :=
  λ s, match m s with
       | (Ok a, s') => k a s'
       | (Throw e, s') => (Throw e, s')
       | (Diverge, s') => (Diverge, s')
       end.

Definition callable : Type := list value → M value.

#[local] Instance callable_inhabited : Inhabited callable :=
  populate (λ _, pure VUndefined).

(** [function compose (...funcs)], after redux. *)
Definition compose (funcs : list callable) : callable :=
  if decide (length funcs = 0) then
    λ args, pure (default VUndefined (args !! 0))
  else if decide (length funcs = 1) then
    funcs !!! 0
  else
    let last := funcs !!! (length funcs - 1) in
    let rest := take (length funcs - 1) funcs in
    λ args,
      foldr (λ f composed, andThen composed (λ c, f [c])) (last args) rest.

(** [v(...args)] with receiver [this], for a value [v]. *)
Definition apply_value (rec : func → value → list value → M value)
    (v this : value) (args : list value) : M value :=
  match v with
  | VFun f => rec f this args
  | _ => throw TypeError
  end.

(** [this[key](...args)] *)
Definition invoke (rec : func → value → list value → M value)
    (this : value) (key : string) (args : list value) : M value :=
  λ s, match obj_at s.1 this with
       | Some o => apply_value rec (get o key) this args s
       | None => (Throw TypeError, s)
       end.

(** [methodsList.reverse()]: reverses the array in place and returns it. *)
Definition reverse_in_place (l : loc) : M (list value) :=
  λ s, match arrs s.1 !! l with
       | Some es => (Ok (reverse es), (set_arr l (reverse es) s.1, s.2))
       | None => (Throw TypeError, s)
       end.

(** [.map(f => f.bind(this))] *)
Definition bind_all (rec : func → value → list value → M value)
    (this : value) (fs : list value) : M (list callable) :=
  match mapM (λ v, match v with
                   | VFun f => Some (rec f this)
                   | _ => None
                   end) fs with
  | Some cs => pure cs
  | None => throw TypeError
  end.

Fixpoint call (n : nat) (f : func) (this : value) (args : list value)
  : M value :=
  match n with
  | 0 => λ s, (Diverge, s)
  | S n =>
      match f with
      | FUser id =>
          λ s, let '(r, w) := user_fn id this args s.2 in (r, (s.1, w))
      | FNoop => pure VUndefined
      | FOnLoad =>
          (* onLoad (opts) { this.onBeforeLoad(opts); ... } *)
          let opts := default VUndefined (args !! 0) in
          andThen (invoke (call n) this "onBeforeLoad" [opts]) (λ _,
          andThen (invoke (call n) this "onNativeLoad" [opts]) (λ _,
          andThen (invoke (call n) this "onAfterLoad" [opts]) (λ _,
          pure VUndefined)))
      | FDispatcher l =>
          (* function (...args) {
               compose(...methodsList.reverse().map(f => f.bind(this)))(...args)
             } *)
          andThen (reverse_in_place l) (λ reversed,
          andThen (bind_all (call n) this reversed) (λ bound,
          andThen (compose bound args) (λ _,
          pure VUndefined)))
      end
  end.

(** The invocation contract the properties are stated against: the
    first function receives the call arguments, every later one the
    value returned by the one before it. *)
Fixpoint thread (fs : list callable) (v : value) : M value :=
  match fs with
  | [] => pure v
  | f :: fs => andThen (f [v]) (thread fs)
  end.

Definition run_in_order (fs : list callable) (args : list value) : M value :=
  match fs with
  | [] => pure (default VUndefined (args !! 0))
  | f :: fs => andThen (f args) (thread fs)
  end.

(** [page[key](...args)]: the host framework firing a page event. *)
Definition fire (n : nat) (page : value) (key : string) (args : list value)
  : M value :=
  invoke (call n) page key args.

End Invocation.


(** ** What the entry point reads from its input

    The theorems below are stated for inputs the model covers: the page
    is an object, its [mixins] (if any) is an array of values other than
    [null] and [undefined] whose [data] and [methods] (if any) are
    neither [null] nor an array and have no property named [__proto__],
    and its [data] is either falsy or an object other than the page
    itself. *)

Record mixin_view := MixinView {
  mv_props : gmap string value;     (* the mixin's own properties *)
  mv_data : gmap string value;      (* [let { data = {} } = mixin] *)
  mv_methods : gmap string value    (* [let { methods = {} } = mixin] *)
}.

(** The [data] or [methods] of a mixin as the theorems take it: absent,
    an object or a primitive.  An array (whose keys would be its indices)
    is left out, and so is a mapping with a property named [__proto__] of
    its own, which only a computed key or [JSON.parse] creates: assigning
    under that name on the accumulator of a collector would replace the
    accumulator's prototype instead of creating the property. *)
Definition view_field (h : heap) (mixin : gmap string value) (k : string)
  : option (gmap string value) :=
  match get mixin k with
  | VArr _ => None
  | _ =>
      o ← field_or_empty h mixin k;
      if decide (o !! "__proto__" = None) then Some o else None
  end.

Definition read_mixin (h : heap) (mixin : value) : option mixin_view :=
  m ← props_of h mixin;
  data ← view_field h m "data";
  methods ← view_field h m "methods";
  Some (MixinView m data methods).

Record input_view := InputView {
  iv_page : gmap string value;      (* the page's own properties *)
  iv_mixins : list mixin_view;      (* [pageConf.mixins], in list order *)
  iv_data : gmap string value       (* [pageConf.data || {}] *)
}.

Definition read_input (h : heap) (pageConf : loc) : option input_view :=
  pc ← objs h !! pageConf;
  mixins ← match get pc "mixins" with
            | VUndefined => Some []
            | v => arr_at h v
            end;
  mvs ← mapM (read_mixin h) mixins;
  nd ← (if truthy (get pc "data") then obj_at h (get pc "data") else Some ∅);
  if decide (get pc "data" = VObj pageConf) then None
  else Some (InputView pc mvs nd).

(** The hook slots as the entry point computes them from the page alone. *)
Definition before_hook (pc : gmap string value) : value :=
  or_default (get pc "onBeforeLoad") (VFun FNoop).

Definition after_hook (pc : gmap string value) : value :=
  or_default (get pc "onAfterLoad") (VFun FNoop).

Definition native_hook (pc : gmap string value) : value :=
  if truthy (get pc "onLoad") then get pc "onLoad" else VFun FNoop.

(** The names the entry point assigns itself, besides [onLoad]. *)
Definition ENTRY_SLOTS : list string :=
  ["data"; "onBeforeLoad"; "onAfterLoad"; "onNativeLoad"].

(** The handlers a list of values contributes: its functions, in order. *)
Definition as_func (v : value) : option func :=
  match v with VFun f => Some f | _ => None end.

Definition mixin_handlers (E : string) (mvs : list mixin_view) : list func :=
  omap (λ mv, as_func (get (mv_props mv) E)) mvs.

Definition page_handler (E : string) (pc : gmap string value) : list func :=
  option_list (as_func (get pc E)).

(** ** The accumulator of [getMixinMethods], one key at a time

    What [ret[key]] holds after each mixin: nothing, a single value taken
    from a [methods] mapping, or the contents of the array built from the
    top-level lifecycle properties. *)

Inductive acc :=
  | ANone
  | ASingle (v : value)
  | AList (es : list value).

Definition acc_elems (a : acc) : list value :=
  match a with AList es => es | _ => [] end.

Definition acc_methods (key : string) (methods : gmap string value) (a : acc)
  : acc :=
  match methods !! key with
  | Some v =>
      if isFunction v && bool_decide (key ≠ "onLoad") then ASingle v else a
  | None => a
  end.

Definition lifecycle_hit (key : string) (mixin : gmap string value) : bool :=
  isFunction (get mixin key) && bool_decide (key ≠ "onLoad").

Definition acc_lifecycle (key : string) (mixin : gmap string value) (a : acc)
  : acc :=
  if bool_decide (key ∈ PAGE_EVENT) && lifecycle_hit key mixin
  then AList (acc_elems a ++ [get mixin key])
  else a.

Definition acc_step (key : string) (a : acc) (mv : mixin_view) : acc :=
  acc_lifecycle key (mv_props mv) (acc_methods key (mv_methods mv) a).

Definition acc_of (key : string) (mvs : list mixin_view) : acc :=
  foldl (acc_step key) ANone mvs.

(** [repr h o a]: the entry [o] of [ret], read in store [h], holds [a]. *)
Definition repr (h : heap) (o : option value) (a : acc) : Prop :=
  match a with
  | ANone => o = None
  | ASingle v => o = Some v ∧ isFunction v = true
  | AList es => ∃ l, o = Some (VArr l) ∧ arrs h !! l = Some es
  end.

(** The arrays [ret] refers to were all allocated after address [n0],
    exist, and are not shared between keys. *)
Definition arrays_private (n0 : nat) (ret : gmap string value) (h : heap)
  : Prop :=
  n0 ≤ length (arrs h)
  ∧ (∀ k l, ret !! k = Some (VArr l) → n0 ≤ l < length (arrs h))
  ∧ (∀ k k' l, ret !! k = Some (VArr l) → ret !! k' = Some (VArr l) → k = k').

(** What [mixMethods] leaves under [key], from the accumulated entry and
    the page's entry. *)
Definition merged (key : string) (mo po : option value) : option value :=
  match mo with
  | None => po
  | Some method =>
      if decide (key ∈ PAGE_EVENT) then
        match method with
        | VArr l => Some (VFun (FDispatcher l))
        | _ => po
        end
      else if match po with
              | Some v => is_nullish v
              | None => negb (bool_decide (key ∈ OBJECT_PROTOTYPE))
              end
           then Some method else po
  end.

(** [mixed p pc h m h']: store [h'] is store [h] after the method merge
    of accumulator [m] into the page at [p], whose properties were [pc]. *)
Definition mixed (p : loc) (pc : gmap string value) (h : heap)
    (m : gmap string value) (h' : heap) : Prop :=
  ∃ pc',
    objs h' = <[p := pc']> (objs h)
    ∧ length (arrs h') = length (arrs h)
    ∧ (∀ k, pc' !! k = merged k (m !! k) (pc !! k))
    ∧ (∀ l, (∀ k, k ∈ PAGE_EVENT → m !! k ≠ Some (VArr l)) →
            arrs h' !! l = arrs h !! l)
    ∧ (∀ k l, k ∈ PAGE_EVENT → m !! k = Some (VArr l) →
              arrs h' !! l
              = (λ es, if isFunction (get pc k) then es ++ [get pc k] else es)
                  <$> arrs h !! l).

(** The data collected from the mixins, and the page as [Object.assign]
    leaves it when the data object is at [ld]. *)
Definition merged_mixin_data (mvs : list mixin_view) : gmap string value :=
  foldl (λ ret mv, copy_keys (mv_data mv) ret) ∅ mvs.

Definition entry_page (ld : loc) (pc : gmap string value)
  : gmap string value :=
  <["onNativeLoad" := native_hook pc]>
    (<["onAfterLoad" := after_hook pc]>
       (<["onBeforeLoad" := before_hook pc]>
          (<["onLoad" := VFun FOnLoad]> (<["data" := VObj ld]> pc)))).

(** ** Sample inputs

    A world in which every user function [FUser id] logs its call
    (identity, receiver, arguments) and returns the number [id]. *)
Definition trace : Type := list (nat * value * list value).

Definition trace_fn (id : nat) (this : value) (args : list value) (w : trace)
  : result value * trace :=
  (Ok (VNum (Z.of_nat id)), w ++ [(id, this, args)]).

(** The scenario of the specification: page
    [{ data: {a:1}, onShow: ps, mixins: [m1, m2] }] with
    [m1 = { data: {a:2, b:2}, onShow: h1 }] and
    [m2 = { data: {b:3, c:3}, onShow: h2 }]; [h1], [h2], [ps] are the user
    functions 1, 2, 3. *)
Definition sample_page : heap := Heap
  [ {[ "mixins" := VArr 0; "data" := VObj 3; "onShow" := VFun (FUser 3) ]};
    {[ "data" := VObj 4; "onShow" := VFun (FUser 1) ]};
    {[ "data" := VObj 5; "onShow" := VFun (FUser 2) ]};
    {[ "a" := VNum 1 ]};
    {[ "a" := VNum 2; "b" := VNum 2 ]};
    {[ "b" := VNum 3; "c" := VNum 3 ]} ]
  [ [VObj 1; VObj 2] ].

(** A page [{ bar: f9, onLoad: f10, mixins: [m1, m2] }] whose mixins
    contribute through [methods]:
    [m1 = { methods: {foo: f1, bar: f7, onReady: f4, onLoad: f12,
                      onBeforeLoad: f13},
            onBeforeLoad: f6, onLoad: f11 }] and
    [m2 = { methods: {foo: f2, onAfterLoad: f8} }]. *)
Definition sample_methods : heap := Heap
  [ {[ "mixins" := VArr 0; "bar" := VFun (FUser 9);
       "onLoad" := VFun (FUser 10) ]};
    {[ "methods" := VObj 3; "onBeforeLoad" := VFun (FUser 6);
       "onLoad" := VFun (FUser 11) ]};
    {[ "methods" := VObj 4 ]};
    {[ "foo" := VFun (FUser 1); "bar" := VFun (FUser 7);
       "onReady" := VFun (FUser 4); "onLoad" := VFun (FUser 12);
       "onBeforeLoad" := VFun (FUser 13) ]};
    {[ "foo" := VFun (FUser 2); "onAfterLoad" := VFun (FUser 8) ]} ]
  [ [VObj 1; VObj 2] ].

(** A page that passes the data object of its first mixin as its own:
    [shared = {a:1}], page [{ data: shared, mixins: [m1, m2] }],
    [m1 = { data: shared }], [m2 = { data: {b:2} }]. *)
Definition sample_shared : heap := Heap
  [ {[ "mixins" := VArr 0; "data" := VObj 3 ]};
    {[ "data" := VObj 3 ]};
    {[ "data" := VObj 4 ]};
    {[ "a" := VNum 1 ]};
    {[ "b" := VNum 2 ]} ]
  [ [VObj 1; VObj 2] ].

(** The values a mixin is made of: itself, its [data], its [methods]. *)
Definition mixin_cells (h : heap) (mixin : value) : list value :=
  [mixin;
   get (default ∅ (obj_at h mixin)) "data";
   get (default ∅ (obj_at h mixin)) "methods"].

(** A computation that leaves every object as it found it. *)
Definition keeps_objs {W A : Type} (m : M (W:=W) A) : Prop :=
  ∀ s r s', m s = (r, s') → objs s'.1 = objs s.1.

(** What the entry point reads from the three sample inputs. *)
Definition sample_page_view : input_view :=
  InputView
    {[ "mixins" := VArr 0; "data" := VObj 3; "onShow" := VFun (FUser 3) ]}
    [ MixinView {[ "data" := VObj 4; "onShow" := VFun (FUser 1) ]}
                {[ "a" := VNum 2; "b" := VNum 2 ]} ∅;
      MixinView {[ "data" := VObj 5; "onShow" := VFun (FUser 2) ]}
                {[ "b" := VNum 3; "c" := VNum 3 ]} ∅ ]
    {[ "a" := VNum 1 ]}.

Definition sample_methods_view : input_view :=
  InputView
    {[ "mixins" := VArr 0; "bar" := VFun (FUser 9);
       "onLoad" := VFun (FUser 10) ]}
    [ MixinView
        {[ "methods" := VObj 3; "onBeforeLoad" := VFun (FUser 6);
           "onLoad" := VFun (FUser 11) ]}
        ∅
        {[ "foo" := VFun (FUser 1); "bar" := VFun (FUser 7);
           "onReady" := VFun (FUser 4); "onLoad" := VFun (FUser 12);
           "onBeforeLoad" := VFun (FUser 13) ]};
      MixinView
        {[ "methods" := VObj 4 ]}
        ∅
        {[ "foo" := VFun (FUser 2); "onAfterLoad" := VFun (FUser 8) ]} ]
    ∅.

Definition sample_shared_view : input_view :=
  InputView
    {[ "mixins" := VArr 0; "data" := VObj 3 ]}
    [ MixinView {[ "data" := VObj 3 ]} {[ "a" := VNum 1 ]} ∅;
      MixinView {[ "data" := VObj 4 ]} {[ "b" := VNum 2 ]} ∅ ]
    {[ "a" := VNum 1 ]}.

(** ** Further notions and sample inputs *)

(** The functions that cannot touch the store: the user's and [noop]. *)
Definition is_user (f : func) : bool :=
  match f with FUser _ | FNoop => true | _ => false end.


(** A handler list is only ever kept under a lifecycle name, and is a
    non-empty list of functions. *)
Definition acc_good (key : string) (a : acc) : Prop :=
  ∀ es, a = AList es →
    key ∈ PAGE_EVENT ∧ es ≠ [] ∧ Forall (λ v, isFunction v = true) es.

(** Page [{ onShow: f3, onHide: f4, mixins: [m1, m2] }] with
    [m1 = { onShow: f1 }] and
    [m2 = { methods: { onShow: f7 }, onShow: f2 }]. *)
Definition sample_shadow : heap := Heap
  [ {[ "mixins" := VArr 0; "onShow" := VFun (FUser 3);
       "onHide" := VFun (FUser 4) ]};
    {[ "onShow" := VFun (FUser 1) ]};
    {[ "methods" := VObj 3; "onShow" := VFun (FUser 2) ]};
    {[ "onShow" := VFun (FUser 7) ]} ]
  [ [VObj 1; VObj 2] ].

Definition sample_shadow_view : input_view :=
  InputView
    {[ "mixins" := VArr 0; "onShow" := VFun (FUser 3);
       "onHide" := VFun (FUser 4) ]}
    [ MixinView {[ "onShow" := VFun (FUser 1) ]} ∅ ∅;
      MixinView {[ "methods" := VObj 3; "onShow" := VFun (FUser 2) ]}
                ∅ {[ "onShow" := VFun (FUser 7) ]} ]
    ∅.

(** A page without mixins: [{ data: {a:1}, onLoad: f10, onShow: f3 }]. *)
Definition sample_plain : heap := Heap
  [ {[ "data" := VObj 1; "onLoad" := VFun (FUser 10);
       "onShow" := VFun (FUser 3) ]};
    {[ "a" := VNum 1 ]} ]
  [].

Definition sample_plain_view : input_view :=
  InputView
    {[ "data" := VObj 1; "onLoad" := VFun (FUser 10);
       "onShow" := VFun (FUser 3) ]}
    [] {[ "a" := VNum 1 ]}.

(** Page [{ onBeforeLoad: null, onLoad: f10, mixins: [m1] }] with
    [m1 = { methods: { onBeforeLoad: f5 } }]. *)
Definition sample_null_hook : heap := Heap
  [ {[ "mixins" := VArr 0; "onBeforeLoad" := VNull;
       "onLoad" := VFun (FUser 10) ]};
    {[ "methods" := VObj 2 ]};
    {[ "onBeforeLoad" := VFun (FUser 5) ]} ]
  [ [VObj 1] ].

Definition sample_null_hook_view : input_view :=
  InputView
    {[ "mixins" := VArr 0; "onBeforeLoad" := VNull;
       "onLoad" := VFun (FUser 10) ]}
    [ MixinView {[ "methods" := VObj 2 ]} ∅
                {[ "onBeforeLoad" := VFun (FUser 5) ]} ]
    ∅.

(** Page [{ onBeforeLoad: null, onLoad: f10 }], no mixins. *)
Definition sample_null_before : heap := Heap
  [ {[ "onBeforeLoad" := VNull; "onLoad" := VFun (FUser 10) ]} ] [].

Definition sample_null_before_view : input_view :=
  InputView {[ "onBeforeLoad" := VNull; "onLoad" := VFun (FUser 10) ]} [] ∅.

(** Page [{ data: {a: undefined}, mixins: [m1] }] with
    [m1 = { data: {a: 5} }]. *)
Definition sample_undefined : heap := Heap
  [ {[ "mixins" := VArr 0; "data" := VObj 2 ]};
    {[ "data" := VObj 3 ]};
    {[ "a" := VUndefined ]};
    {[ "a" := VNum 5 ]} ]
  [ [VObj 1] ].

Definition sample_undefined_view : input_view :=
  InputView
    {[ "mixins" := VArr 0; "data" := VObj 2 ]}
    [ MixinView {[ "data" := VObj 3 ]} {[ "a" := VNum 5 ]} ∅ ]
    {[ "a" := VUndefined ]}.





(** The first sample page after the merge, and what a second merge reads
    from it. *)
Definition sample_merged : heap :=
  Eval vm_compute in default (Heap [] []) (default_export 0 sample_page).

Definition sample_merged_view : input_view :=
  Eval vm_compute in
    default (InputView ∅ [] ∅) (read_input sample_merged 0).

(** A computation that leaves the whole store as it found it. *)
Definition keeps_store {W A : Type} (m : M (W:=W) A) : Prop :=
  ∀ s r s', m s = (r, s') → s'.1 = s.1.

(** * Properties *)

(** ** The function composer *)

Section ComposeFacts.
Context {W : Type}.
Implicit Types (m : M (W:=W) value) (f : callable (W:=W)).

Lemma andThen_ext {A B} (m : M (W:=W) A) (k k' : A → M (W:=W) B) s :
  (∀ a s', k a s' = k' a s') → andThen m k s = andThen m k' s.
Proof.
  intros Hk. unfold andThen. destruct (m s) as [[a|e|] s']; auto.
Qed.

Lemma andThen_assoc {A B C} (m : M (W:=W) A) (k : A → M (W:=W) B)
    (k' : B → M (W:=W) C) s :
  andThen (andThen m k) k' s = andThen m (λ a, andThen (k a) k') s.
Proof.
  unfold andThen. destruct (m s) as [[a|e|] s']; auto.
Qed.

Lemma andThen_pure_r {A} (m : M (W:=W) A) s : andThen m pure s = m s.
Proof.
  unfold andThen, pure. destruct (m s) as [[a|e|] s']; auto.
Qed.

Lemma thread_snoc (fs : list (callable (W:=W))) f v s :
  thread (fs ++ [f]) v s = andThen (thread fs v) (λ c, f [c]) s.
Proof.
  revert v s. induction fs as [|g fs IH]; intros v s; simpl.
  - unfold andThen at 2. simpl. apply andThen_pure_r.
  - rewrite andThen_assoc. apply andThen_ext. intros a s'. apply IH.
Qed.

Lemma reduceRight_thread (rest : list (callable (W:=W))) m s :
  foldr (λ f composed, andThen composed (λ c, f [c])) m rest s
  = andThen m (thread (reverse rest)) s.
Proof.
  revert s. induction rest as [|f rest IH]; intros s; simpl.
  - symmetry. apply andThen_pure_r.
  - rewrite reverse_cons.
    transitivity (andThen (andThen m (thread (reverse rest))) (λ c, f [c]) s).
    + unfold andThen at 1 3. rewrite IH. reflexivity.
    + rewrite andThen_assoc. apply andThen_ext. intros a s'.
      symmetry. apply thread_snoc.
Qed.

Lemma compose_snoc (rest : list (callable (W:=W))) last args s :
  rest ≠ [] →
  compose (rest ++ [last]) args s
  = andThen (last args) (thread (reverse rest)) s.
Proof.
  intros Hne. unfold compose.
  rewrite length_app. simpl.
  destruct (decide (length rest + 1 = 0)) as [|_]; [lia|].
  destruct (decide (length rest + 1 = 1)) as [Hl|_].
  { destruct rest; [done|simpl in Hl; lia]. }
  replace (length rest + 1 - 1) with (length rest) by lia.
  rewrite take_app_length.
  rewrite (list_lookup_total_middle rest [] last (length rest)) by done.
  apply reduceRight_thread.
Qed.

Lemma compose_run_in_order (funcs : list (callable (W:=W))) args s :
  compose funcs args s = run_in_order (reverse funcs) args s.
Proof.
  destruct funcs as [|f funcs _] using rev_ind; [done|].
  rewrite reverse_snoc. simpl.
  destruct funcs as [|g funcs].
  - simpl. unfold compose. simpl. symmetry. apply andThen_pure_r.
  - apply compose_snoc. done.
Qed.

(** C7. The composer: the empty list gives the identity on the sole
    argument, a one-element list gives that very function, and a list
    [f1; f2; ...; fN] with at least two elements gives the function that
    evaluates [fN] on the call arguments and then feeds each result to
    the element before it, down to [f1], whose result is returned. *)
Theorem compose_contract :
  (∀ (a : value) (s : heap * W), compose [] [a] s = (Ok a, s))
  ∧ (∀ f, compose [f] = f)
  ∧ (∀ f1 f2 (fs : list (callable (W:=W))) args s,
       compose (f1 :: f2 :: fs) args s
       = run_in_order (reverse (f1 :: f2 :: fs)) args s)
  ∧ (∀ f1 f2 f3 args s,
       compose [f1; f2; f3] args s
       = andThen (f3 args) (λ v3,
           andThen (f2 [v3]) (λ v2,
             andThen (f1 [v2]) pure)) s).
Proof.
  split; [done|]. split; [done|]. split.
  - intros. apply compose_run_in_order.
  - intros. rewrite compose_run_in_order. reflexivity.
Qed.

End ComposeFacts.

(** ** The loops over the keys of an object *)

Lemma copy_keys_lookup (data ret : gmap string value) k :
  copy_keys data ret !! k
  = match data !! k with Some v => Some v | None => ret !! k end.
Proof.
  unfold copy_keys.
  apply (map_fold_weak_ind (λ r (m : gmap string value),
    r !! k = match m !! k with Some v => Some v | None => ret !! k end)).
  - by rewrite lookup_empty.
  - intros i x m r Hi IH. destruct (decide (i = k)) as [->|Hne].
    + by rewrite !lookup_insert_eq.
    + by rewrite !lookup_insert_ne.
Qed.

Lemma collect_methods_lookup (methods ret : gmap string value) k :
  collect_methods methods ret !! k
  = match methods !! k with
    | Some v =>
        if isFunction v && bool_decide (k ≠ "onLoad") then Some v
        else ret !! k
    | None => ret !! k
    end.
Proof.
  unfold collect_methods.
  apply (map_fold_weak_ind (λ r (m : gmap string value),
    r !! k = match m !! k with
             | Some v =>
                 if isFunction v && bool_decide (k ≠ "onLoad") then Some v
                 else ret !! k
             | None => ret !! k
             end)).
  - by rewrite lookup_empty.
  - intros i x m r Hi IH. destruct (decide (i = k)) as [->|Hne].
    + rewrite lookup_insert_eq. rewrite Hi in IH.
      destruct (isFunction x); simpl; [|done].
      destruct (decide (k = "onLoad")) as [->|Hk].
      * by rewrite bool_decide_eq_false_2 by (intros ?; done).
      * rewrite bool_decide_eq_true_2 by done. by rewrite lookup_insert_eq.
    + rewrite (lookup_insert_ne m) by done.
      destruct (isFunction x); simpl; [|done].
      destruct (decide (i = "onLoad")); [done|].
      by rewrite lookup_insert_ne.
Qed.

Lemma reads_nullish_lookup (o : gmap string value) k :
  reads_nullish o k
  = match o !! k with
    | Some v => is_nullish v
    | None => negb (bool_decide (k ∈ OBJECT_PROTOTYPE))
    end.
Proof.
  unfold reads_nullish, inherited, get. destruct (o !! k); simpl; [done|].
  by rewrite andb_true_r.
Qed.

Lemma reads_undefined_lookup (o : gmap string value) k :
  reads_undefined o k
  = match o !! k with
    | Some v => bool_decide (v = VUndefined)
    | None => negb (bool_decide (k ∈ OBJECT_PROTOTYPE))
    end.
Proof.
  unfold reads_undefined, inherited, get. destruct (o !! k); simpl; [done|].
  by rewrite andb_true_r.
Qed.

Lemma mix_key_lookup (nd md : gmap string value) k :
  map_fold mix_key nd md !! k
  = if reads_undefined nd k
    then match md !! k with Some v => Some v | None => nd !! k end
    else nd !! k.
Proof.
  revert k.
  apply (map_fold_weak_ind (λ r (m : gmap string value), ∀ k,
    r !! k = if reads_undefined nd k
             then match m !! k with Some v => Some v | None => nd !! k end
             else nd !! k)).
  - intros k'. rewrite lookup_empty. by destruct (reads_undefined _ _).
  - intros i x m r Hi IH k.
    assert (r !! i = nd !! i) as Hri.
    { rewrite IH, Hi. by destruct (reads_undefined _ _). }
    assert (reads_undefined r i = reads_undefined nd i) as Hu.
    { unfold reads_undefined, inherited, get. by rewrite Hri. }
    unfold mix_key. rewrite Hu.
    destruct (decide (i = k)) as [->|Hne].
    + rewrite lookup_insert_eq.
      destruct (reads_undefined nd k) eqn:Hd; simpl.
      * by rewrite lookup_insert_eq.
      * rewrite IH. by rewrite Hd.
    + rewrite (lookup_insert_ne m) by done.
      destruct (reads_undefined nd i); simpl; [|apply IH].
      rewrite lookup_insert_ne by done. apply IH.
Qed.

(** ** Reading mixins from a store that has grown *)

Lemma props_of_grow h h' v o :
  objs h `prefix_of` objs h' → props_of h v = Some o → props_of h' v = Some o.
Proof.
  intros Hpre. destruct v; simpl; try done.
  intros Hl. by eapply prefix_lookup_Some.
Qed.

Lemma view_field_grow h h' m k o :
  objs h `prefix_of` objs h' →
  view_field h m k = Some o → view_field h' m k = Some o.
Proof.
  intros Hpre. unfold view_field, field_or_empty.
  destruct (get m k) as [| | | | | |l|]; try done. simpl.
  destruct (objs h !! l) as [o'|] eqn:Hl; [|done].
  by rewrite (prefix_lookup_Some _ _ _ _ Hl Hpre).
Qed.

Lemma view_field_Some h m k o :
  view_field h m k = Some o →
  field_or_empty h m k = Some o ∧ o !! "__proto__" = None.
Proof.
  unfold view_field.
  destruct (get m k); try done;
    (destruct (field_or_empty h m k) as [o'|]; [|done]); simpl;
    (destruct (decide (o' !! "__proto__" = None)); [|done]);
    by intros [= <-].
Qed.

Lemma read_mixin_grow h h' v mv :
  objs h `prefix_of` objs h' →
  read_mixin h v = Some mv → read_mixin h' v = Some mv.
Proof.
  intros Hpre. unfold read_mixin. intros Hr.
  destruct (props_of h v) as [m|] eqn:Hm; [|done]. simpl in Hr.
  destruct (view_field h m "data") as [d|] eqn:Hd; [|done]. simpl in Hr.
  destruct (view_field h m "methods") as [mt|] eqn:Hmt; [|done].
  simpl in Hr.
  rewrite (props_of_grow _ _ _ _ Hpre Hm). simpl.
  rewrite (view_field_grow _ _ _ _ _ Hpre Hd). simpl.
  by rewrite (view_field_grow _ _ _ _ _ Hpre Hmt).
Qed.

Lemma read_mixins_grow h h' vs mvs :
  objs h `prefix_of` objs h' →
  mapM (read_mixin h) vs = Some mvs → mapM (read_mixin h') vs = Some mvs.
Proof.
  intros Hpre. rewrite !mapM_Some. intros HF.
  eapply Forall2_impl; [exact HF|]. intros v mv. by apply read_mixin_grow.
Qed.

Lemma forEach_cons {A S : Type} (f : S → A → option S) x xs s :
  forEach f (x :: xs) s = f s x ≫= forEach f xs.
Proof. done. Qed.

Lemma read_mixin_Some h v mv :
  read_mixin h v = Some mv →
  props_of h v = Some (mv_props mv)
  ∧ field_or_empty h (mv_props mv) "data" = Some (mv_data mv)
  ∧ field_or_empty h (mv_props mv) "methods" = Some (mv_methods mv).
Proof.
  unfold read_mixin. intros Hr.
  destruct (props_of h v) as [m|]; [|done]. simpl in Hr.
  destruct (view_field h m "data") as [d|] eqn:Hd; [|done]. simpl in Hr.
  destruct (view_field h m "methods") as [mt|] eqn:Hmt; [|done].
  simpl in Hr. injection Hr as <-. simpl.
  apply view_field_Some in Hd as [Hd _].
  by apply view_field_Some in Hmt as [Hmt _].
Qed.

(** ** [getMixinData] *)

Lemma copy_from_read h ret v mv :
  read_mixin h v = Some mv →
  copy_from h ret v = Some (copy_keys (mv_data mv) ret).
Proof.
  intros Hv. apply read_mixin_Some in Hv as (Hm & Hd & _).
  unfold copy_from. rewrite Hm. cbn [mbind option_bind].
  by rewrite Hd.
Qed.

Lemma getMixinData_from h vs mvs ret :
  mapM (read_mixin h) vs = Some mvs →
  forEach (copy_from h) vs ret
  = Some (foldl (λ ret mv, copy_keys (mv_data mv) ret) ret mvs).
Proof.
  rewrite mapM_Some. intros HF. revert ret.
  induction HF as [|v mv vs mvs Hv _ IH]; intros ret; [done|].
  rewrite forEach_cons, (copy_from_read _ _ _ _ Hv). apply IH.
Qed.


Lemma merged_data_last (mvs : list mixin_view) ret k pre mv post v :
  mvs = pre ++ mv :: post →
  mv_data mv !! k = Some v →
  Forall (λ mv', mv_data mv' !! k = None) post →
  foldl (λ ret mv, copy_keys (mv_data mv) ret) ret mvs !! k = Some v.
Proof.
  intros -> Hv Hpost. rewrite foldl_app. simpl.
  generalize (foldl (λ ret mv0, copy_keys (mv_data mv0) ret) ret pre).
  intros r.
  assert (copy_keys (mv_data mv) r !! k = Some v) as H0.
  { by rewrite copy_keys_lookup, Hv. }
  revert H0. generalize (copy_keys (mv_data mv) r). clear r.
  induction Hpost as [|mv' post Hk _ IH]; intros r Hr; [done|].
  simpl. apply IH. by rewrite copy_keys_lookup, Hk.
Qed.


(** ** [getMixinMethods] *)

Lemma repr_grow h h' o a :
  arrs h `prefix_of` arrs h' → repr h o a → repr h' o a.
Proof.
  intros Hp. destruct a; simpl; auto.
  intros (l & -> & Hl). exists l. split; [done|].
  by eapply prefix_lookup_Some.
Qed.

Lemma repr_elems h o a :
  repr h o a → default [] (arr_at h (default VUndefined o)) = acc_elems a.
Proof.
  destruct a as [|v|es]; simpl.
  - by intros ->.
  - intros [-> Hf]. by destruct v.
  - intros (l & -> & Hl). simpl. by rewrite Hl.
Qed.

Lemma collect_lifecycle_miss m st k :
  lifecycle_hit k m = false → collect_lifecycle m st k = st.
Proof.
  unfold lifecycle_hit, collect_lifecycle. intros Hh.
  destruct (isFunction (get m k)); simpl in *; [|done].
  destruct (decide (k = "onLoad")); [done|].
  by rewrite bool_decide_eq_true_2 in Hh.
Qed.

Lemma collect_lifecycle_hit m ret h k :
  lifecycle_hit k m = true →
  collect_lifecycle m (ret, h) k
  = (<[k := VArr (length (arrs h))]> ret,
     Heap (objs h)
          (arrs h ++ [default [] (arr_at h (get ret k)) ++ [get m k]])).
Proof.
  unfold lifecycle_hit, collect_lifecycle. intros Hh.
  apply andb_true_iff in Hh as [Hf Hk]. apply bool_decide_eq_true in Hk.
  rewrite Hf. simpl. destruct (decide (k = "onLoad")); [done|].
  by destruct (arr_at h (get ret k)).
Qed.

Lemma collect_lifecycle_step m n0 ret h (a : string → acc) k0 :
  arrays_private n0 ret h →
  (∀ k, repr h (ret !! k) (a k)) →
  arrays_private n0 (collect_lifecycle m (ret, h) k0).1
                    (collect_lifecycle m (ret, h) k0).2
  ∧ objs (collect_lifecycle m (ret, h) k0).2 = objs h
  ∧ arrs h `prefix_of` arrs (collect_lifecycle m (ret, h) k0).2
  ∧ ∀ k, repr (collect_lifecycle m (ret, h) k0).2
              ((collect_lifecycle m (ret, h) k0).1 !! k)
              (if decide (k = k0)
               then (if lifecycle_hit k m
                     then AList (acc_elems (a k) ++ [get m k]) else a k)
               else a k).
Proof.
  intros (Hn0 & Hrange & Hinj) Hrepr.
  destruct (lifecycle_hit k0 m) eqn:Hhit.
  - rewrite collect_lifecycle_hit by done. simpl.
    assert (default [] (arr_at h (get ret k0)) = acc_elems (a k0)) as ->.
    { apply (repr_elems h (ret !! k0)), Hrepr. }
    split; [|split; [done|split; [by apply prefix_app_r|]]].
    + unfold arrays_private. simpl. rewrite length_app. simpl.
      split; [lia|]. split.
      * intros k l.
        destruct (decide (k = k0)) as [->|Hne].
        -- rewrite lookup_insert_eq. intros [= <-]. lia.
        -- rewrite lookup_insert_ne by done. intros Hl.
           apply Hrange in Hl. lia.
      * intros k k' l.
        destruct (decide (k = k0)) as [->|Hne];
          destruct (decide (k' = k0)) as [->|Hne']; try done.
        -- rewrite lookup_insert_eq, lookup_insert_ne by done.
           intros [= <-] Hl. apply Hrange in Hl. lia.
        -- rewrite lookup_insert_eq, lookup_insert_ne by done.
           intros Hl [= <-]. apply Hrange in Hl. lia.
        -- rewrite !lookup_insert_ne by done. apply Hinj.
    + intros k. destruct (decide (k = k0)) as [->|Hne].
      * rewrite Hhit, lookup_insert_eq. simpl.
        exists (length (arrs h)). split; [done|].
        by rewrite lookup_app_r, Nat.sub_diag by lia.
      * rewrite lookup_insert_ne by done.
        eapply repr_grow; [|apply Hrepr]. simpl. by apply prefix_app_r.
  - rewrite collect_lifecycle_miss by done. simpl.
    split; [done|]. split; [done|]. split; [done|].
    intros k. destruct (decide (k = k0)) as [->|Hne]; [|apply Hrepr].
    rewrite Hhit. apply Hrepr.
Qed.

Lemma collect_lifecycle_fold m n0 ks :
  NoDup ks → ∀ ret h (a : string → acc),
  arrays_private n0 ret h →
  (∀ k, repr h (ret !! k) (a k)) →
  arrays_private n0 (foldl (collect_lifecycle m) (ret, h) ks).1
                    (foldl (collect_lifecycle m) (ret, h) ks).2
  ∧ objs (foldl (collect_lifecycle m) (ret, h) ks).2 = objs h
  ∧ arrs h `prefix_of` arrs (foldl (collect_lifecycle m) (ret, h) ks).2
  ∧ ∀ k, repr (foldl (collect_lifecycle m) (ret, h) ks).2
              ((foldl (collect_lifecycle m) (ret, h) ks).1 !! k)
              (if bool_decide (k ∈ ks) && lifecycle_hit k m
               then AList (acc_elems (a k) ++ [get m k]) else a k).
Proof.
  induction 1 as [|k0 ks Hk0 _ IH]; intros ret h a Hpriv Hrepr.
  - simpl. split; [done|]. split; [done|]. split; [done|]. done.
  - cbn [foldl].
    destruct (collect_lifecycle_step m n0 ret h a k0 Hpriv Hrepr)
      as (Hpriv1 & Hobjs1 & Hpre1 & Hrepr1).
    destruct (collect_lifecycle m (ret, h) k0) as [ret1 h1]. cbn [fst snd] in *.
    destruct (IH ret1 h1 _ Hpriv1 Hrepr1)
      as (Hpriv2 & Hobjs2 & Hpre2 & Hrepr2).
    split; [done|]. split; [congruence|]. split; [by etrans|].
    intros k. specialize (Hrepr2 k).
    destruct (decide (k = k0)) as [->|Hne].
    + rewrite (bool_decide_eq_false_2 (k0 ∈ ks)) in Hrepr2 by done.
      rewrite (bool_decide_eq_true_2 (k0 ∈ k0 :: ks)) by apply list_elem_of_here.
      simpl in *. done.
    + rewrite (bool_decide_ext (k ∈ k0 :: ks) (k ∈ ks)).
      * done.
      * rewrite elem_of_cons. intuition.
Qed.

Lemma PAGE_EVENT_NoDup : NoDup PAGE_EVENT.
Proof. compute_done. Qed.

Lemma collect_methods_step n0 ret h (a : string → acc) mt :
  arrays_private n0 ret h →
  (∀ k, repr h (ret !! k) (a k)) →
  arrays_private n0 (collect_methods mt ret) h
  ∧ ∀ k, repr h (collect_methods mt ret !! k) (acc_methods k mt (a k)).
Proof.
  intros (Hn0 & Hrange & Hinj) Hrepr.
  assert (∀ k l, collect_methods mt ret !! k = Some (VArr l) →
                 ret !! k = Some (VArr l)) as Hold.
  { intros k l. rewrite collect_methods_lookup.
    destruct (mt !! k) as [v|]; [|done].
    destruct (isFunction v) eqn:Hf; simpl; [|done].
    destruct (bool_decide (k ≠ "onLoad")); [|done].
    intros [= ->]. done. }
  split.
  - split; [done|]. split.
    + intros k l Hl. eapply Hrange, Hold, Hl.
    + intros k k' l Hl Hl'. eapply Hinj; eapply Hold; eassumption.
  - intros k. rewrite collect_methods_lookup. unfold acc_methods.
    destruct (mt !! k) as [v|]; [|apply Hrepr].
    destruct (isFunction v && bool_decide (k ≠ "onLoad")) eqn:Hc;
      [|apply Hrepr].
    simpl. apply andb_true_iff in Hc as [Hf _]. done.
Qed.

Lemma collect_mixin n0 ret h (a : string → acc) mv :
  arrays_private n0 ret h →
  (∀ k, repr h (ret !! k) (a k)) →
  arrays_private n0
    (foldl (collect_lifecycle (mv_props mv))
           (collect_methods (mv_methods mv) ret, h) PAGE_EVENT).1
    (foldl (collect_lifecycle (mv_props mv))
           (collect_methods (mv_methods mv) ret, h) PAGE_EVENT).2
  ∧ objs (foldl (collect_lifecycle (mv_props mv))
           (collect_methods (mv_methods mv) ret, h) PAGE_EVENT).2 = objs h
  ∧ arrs h `prefix_of`
      arrs (foldl (collect_lifecycle (mv_props mv))
           (collect_methods (mv_methods mv) ret, h) PAGE_EVENT).2
  ∧ ∀ k, repr
      (foldl (collect_lifecycle (mv_props mv))
           (collect_methods (mv_methods mv) ret, h) PAGE_EVENT).2
      ((foldl (collect_lifecycle (mv_props mv))
           (collect_methods (mv_methods mv) ret, h) PAGE_EVENT).1 !! k)
      (acc_step k (a k) mv).
Proof.
  intros Hpriv Hrepr.
  destruct (collect_methods_step n0 ret h a (mv_methods mv) Hpriv Hrepr)
    as [Hpriv1 Hrepr1].
  apply (collect_lifecycle_fold (mv_props mv) n0 PAGE_EVENT PAGE_EVENT_NoDup
           _ _ _ Hpriv1 Hrepr1).
Qed.

Lemma collect_from_read ret h v mv :
  read_mixin h v = Some mv →
  collect_from (ret, h) v
  = Some (foldl (collect_lifecycle (mv_props mv))
                (collect_methods (mv_methods mv) ret, h) PAGE_EVENT).
Proof.
  intros Hv. apply read_mixin_Some in Hv as (Hm & _ & Hmt).
  unfold collect_from. cbn [fst snd]. rewrite Hm. cbn [mbind option_bind].
  by rewrite Hmt.
Qed.

Lemma getMixinMethods_from h0 n0 vs mvs :
  mapM (read_mixin h0) vs = Some mvs →
  ∀ ret h (a : string → acc),
  objs h = objs h0 →
  arrays_private n0 ret h →
  (∀ k, repr h (ret !! k) (a k)) →
  ∃ mm h',
    forEach collect_from vs (ret, h) = Some (mm, h')
    ∧ arrays_private n0 mm h'
    ∧ objs h' = objs h0
    ∧ arrs h `prefix_of` arrs h'
    ∧ ∀ k, repr h' (mm !! k) (foldl (acc_step k) (a k) mvs).
Proof.
  rewrite mapM_Some. intros HF.
  induction HF as [|v mv vs mvs Hv _ IH]; intros ret h a Hobjs Hpriv Hrepr.
  - exists ret, h. done.
  - assert (objs h0 `prefix_of` objs h) as Hpre by by rewrite Hobjs.
    rewrite forEach_cons.
    rewrite (collect_from_read _ _ _ _ (read_mixin_grow _ _ _ _ Hpre Hv)).
    cbn [mbind option_bind].
    destruct (collect_mixin n0 ret h a mv Hpriv Hrepr)
      as (Hpriv1 & Hobjs1 & Hpre1 & Hrepr1).
    destruct (foldl (collect_lifecycle (mv_props mv))
                (collect_methods (mv_methods mv) ret, h) PAGE_EVENT)
      as [ret1 h1]. cbn [fst snd] in *.
    destruct (IH ret1 h1 (λ k, acc_step k (a k) mv)) as
      (mm & h' & Hrun & Hpriv2 & Hobjs2 & Hpre2 & Hrepr2);
      [congruence|done|done|].
    exists mm, h'. split; [done|]. split; [done|]. split; [done|].
    split; [by etrans|done].
Qed.

Lemma getMixinMethods_spec h vs mvs :
  mapM (read_mixin h) vs = Some mvs →
  ∃ mm h',
    getMixinMethods h vs = Some (mm, h')
    ∧ arrays_private (length (arrs h)) mm h'
    ∧ objs h' = objs h
    ∧ arrs h `prefix_of` arrs h'
    ∧ ∀ k, repr h' (mm !! k) (acc_of k mvs).
Proof.
  intros Hr.
  apply (getMixinMethods_from h (length (arrs h)) vs mvs Hr ∅ h (λ _, ANone)).
  - done.
  - split; [done|]. split; intros k; intros; by rewrite lookup_empty in *.
  - intros k. simpl. apply lookup_empty.
Qed.

(** ** [mixMethods] *)

Lemma arrays_private_insert n0 i x (m : gmap string value) h :
  m !! i = None →
  arrays_private n0 (<[i := x]> m) h →
  arrays_private n0 m h
  ∧ ∀ k l, x = VArr l → m !! k ≠ Some (VArr l).
Proof.
  intros Hi (Hn0 & Hrange & Hinj).
  assert (∀ k v, m !! k = Some v → <[i := x]> m !! k = Some v) as Hsub.
  { intros k v Hk. rewrite lookup_insert_ne; [done|]. congruence. }
  split; [split; [done|split]|].
  - intros k l Hk. eapply Hrange, Hsub, Hk.
  - intros k k' l Hk Hk'. eapply Hinj; eapply Hsub; eassumption.
  - intros k l -> Hk.
    assert (k = i) as ->; [|congruence].
    eapply Hinj; [by apply Hsub|]. by rewrite lookup_insert_eq.
Qed.

Lemma mixMethods_spec n0 p pc h mm :
  objs h !! p = Some pc →
  arrays_private n0 mm h →
  ∃ h', mixMethods mm p h = Some h' ∧ mixed p pc h mm h'.
Proof.
  intros Hp. unfold mixMethods.
  apply (map_fold_weak_ind (λ r (m : gmap string value),
    arrays_private n0 m h → ∃ h', r = Some h' ∧ mixed p pc h m h')).
  - intros _. exists h. split; [done|]. exists pc.
    split; [by rewrite list_insert_id|]. split; [done|].
    split; [intros k; by rewrite lookup_empty|].
    split; [done|]. intros k l _. by rewrite lookup_empty.
  - intros i x m r Hi IH Hpriv.
    destruct (arrays_private_insert _ _ _ _ _ Hi Hpriv) as [Hpriv' Hfresh].
    destruct (IH Hpriv') as (h' & -> & pc' & Hobjs & Hlen & Hpc & Hold & Hnew).
    assert (p < length (objs h)) as Hplt by by eapply lookup_lt_Some.
    assert (objs h' !! p = Some pc') as Hp'.
    { rewrite Hobjs. by apply list_lookup_insert_eq. }
    assert (get pc' i = get pc i) as Hget.
    { unfold get. by rewrite Hpc, Hi. }
    assert (∀ l, (∀ k, k ∈ PAGE_EVENT → <[i := x]> m !! k ≠ Some (VArr l)) →
                 ∀ k, k ∈ PAGE_EVENT → m !! k ≠ Some (VArr l)) as Hweak.
    { intros l Hl k Hk Hmk. apply (Hl k Hk).
      rewrite lookup_insert_ne; [done|]. congruence. }
    assert (reads_nullish pc' i = reads_nullish pc i) as Hrn.
    { rewrite !reads_nullish_lookup. by rewrite Hpc, Hi. }
    unfold mix_method. cbn [mbind option_bind]. rewrite Hp'.
    cbn [mbind option_bind]. rewrite Hget, Hrn.
    destruct (decide (i ∈ PAGE_EVENT)) as [Hev|Hev].
    + assert ((∃ l, x = VArr l) ∨ ¬ ∃ l, x = VArr l) as [[l ->]|Hx].
      { destruct x; eauto; right; intros [? ?]; done. }
      * destruct Hpriv as (_ & Hrange & _).
        specialize (Hrange i l (lookup_insert_eq _ _ _)).
        assert (arrs h' !! l = arrs h !! l) as Hl.
        { apply Hold. intros k _. by apply Hfresh. }
        destruct (lookup_lt_is_Some_2 (arrs h) l) as [es Hes]; [lia|].
        rewrite Hl, Hes.
        eexists. split; [done|].
        exists (<[i := VFun (FDispatcher l)]> pc').
        split; [|split; [|split; [|split]]].
        -- destruct (isFunction (get pc i)); simpl;
             by rewrite Hobjs, list_insert_insert_eq.
        -- destruct (isFunction (get pc i)); simpl;
             by rewrite ?length_insert.
        -- intros k. destruct (decide (k = i)) as [->|Hne].
           ++ rewrite !lookup_insert_eq. unfold merged.
              by rewrite decide_True.
           ++ rewrite !lookup_insert_ne by done. apply Hpc.
        -- intros l' Hl'.
           assert (l ≠ l') as Hll.
           { intros <-. apply (Hl' i Hev). by rewrite lookup_insert_eq. }
           transitivity (arrs h' !! l'); [|by apply Hold, Hweak].
           destruct (isFunction (get pc i)); simpl; [|done].
           by rewrite list_lookup_insert_ne.
        -- intros k l' Hk. destruct (decide (k = i)) as [->|Hne].
           ++ rewrite lookup_insert_eq. intros [= <-]. rewrite Hes. simpl.
              destruct (isFunction (get pc i)); simpl; [|by rewrite Hl].
              apply list_lookup_insert_eq. rewrite Hlen. lia.
           ++ rewrite lookup_insert_ne by done. intros Hmk.
              assert (l ≠ l') as Hll.
              { intros <-. by apply (Hfresh k l). }
              rewrite <- (Hnew k l' Hk Hmk).
              destruct (isFunction (get pc i)); simpl; [|done].
              by rewrite list_lookup_insert_ne.
      * assert (match x with
                | VArr l =>
                    match arrs h' !! l with
                    | Some methodsList =>
                        Some (set_obj p (<[i:=VFun (FDispatcher l)]> pc')
                                (if isFunction (get pc i)
                                 then set_arr l (methodsList ++ [get pc i]) h'
                                 else h'))
                    | None => Some h'
                    end
                | _ => Some h'
                end = Some h') as ->.
        { destruct x; try done. destruct Hx. by eexists. }
        exists h'. split; [done|]. exists pc'.
        split; [done|]. split; [done|]. split; [|split].
        -- intros k. destruct (decide (k = i)) as [->|Hne].
           ++ rewrite lookup_insert_eq, Hpc, Hi. unfold merged.
              rewrite decide_True by done.
              destruct x; try done. destruct Hx. by eexists.
           ++ rewrite lookup_insert_ne by done. apply Hpc.
        -- intros l Hl. by apply Hold, Hweak.
        -- intros k l Hk. destruct (decide (k = i)) as [->|Hne].
           ++ rewrite lookup_insert_eq. intros [= ->]. destruct Hx. by eexists.
           ++ rewrite lookup_insert_ne by done. by apply Hnew.
    + assert (∀ k, k ∈ PAGE_EVENT → k ≠ i) as Hki by (intros k ? ->; done).
      destruct (reads_nullish pc i) eqn:Hnull.
      * eexists. split; [done|]. exists (<[i := x]> pc').
        split; [by simpl; rewrite Hobjs, list_insert_insert_eq|].
        split; [done|]. split; [|split].
        -- intros k. destruct (decide (k = i)) as [->|Hne].
           ++ rewrite !lookup_insert_eq. unfold merged.
              rewrite decide_False by done.
              rewrite reads_nullish_lookup in Hnull. by rewrite Hnull.
           ++ rewrite !lookup_insert_ne by done. apply Hpc.
        -- intros l Hl. simpl. by apply Hold, Hweak.
        -- intros k l Hk. rewrite lookup_insert_ne by (by apply not_symmetry, Hki).
           simpl. by apply Hnew.
      * exists h'. split; [done|]. exists pc'.
        split; [done|]. split; [done|]. split; [|split].
        -- intros k. destruct (decide (k = i)) as [->|Hne].
           ++ rewrite lookup_insert_eq, Hpc, Hi. unfold merged.
              rewrite decide_False by done.
              rewrite reads_nullish_lookup in Hnull. by rewrite Hnull.
           ++ rewrite lookup_insert_ne by done. apply Hpc.
        -- intros l Hl. by apply Hold, Hweak.
        -- intros k l Hk. rewrite lookup_insert_ne by (by apply not_symmetry, Hki).
           by apply Hnew.
Qed.

(** ** The entry point up to [Object.assign] *)

Lemma read_input_Some h p iv :
  read_input h p = Some iv →
  objs h !! p = Some (iv_page iv)
  ∧ (∃ ms, match get (iv_page iv) "mixins" with
           | VUndefined => Some []
           | v => arr_at h v
           end = Some ms
           ∧ mapM (read_mixin h) ms = Some (iv_mixins iv))
  ∧ (if truthy (get (iv_page iv) "data")
     then obj_at h (get (iv_page iv) "data") else Some ∅) = Some (iv_data iv)
  ∧ get (iv_page iv) "data" ≠ VObj p.
Proof.
  unfold read_input. intros Hr.
  destruct (objs h !! p) as [pc|]; [|done]. cbn [mbind option_bind] in Hr.
  destruct (match get pc "mixins" with
            | VUndefined => Some []
            | v => arr_at h v
            end) as [ms|] eqn:Hms; [|done].
  cbn [mbind option_bind] in Hr.
  destruct (mapM (read_mixin h) ms) as [mvs|] eqn:Hmvs; [|done].
  cbn [mbind option_bind] in Hr.
  destruct (if truthy (get pc "data") then obj_at h (get pc "data")
            else Some ∅) as [nd|] eqn:Hnd; [|done].
  cbn [mbind option_bind] in Hr.
  destruct (decide (get pc "data" = VObj p)); [done|].
  injection Hr as <-. simpl. eauto 10.
Qed.

Lemma prepare_tail h p pc ms mvs h1 ld nd onB onA onN :
  objs h !! p = Some pc →
  mapM (read_mixin h) ms = Some mvs →
  objs h `prefix_of` objs h1 →
  arrs h1 = arrs h →
  objs h1 !! ld = Some nd →
  ld ≠ p →
  ∃ mm h4,
    (mixinData ← getMixinData h1 ms;
     '(mixinMethods, h) ← getMixinMethods h1 ms;
     '(data, h) ← mixData mixinData (VObj ld) h;
     h ← assign p
           [("data", data); ("onLoad", VFun FOnLoad);
            ("onBeforeLoad", onB); ("onAfterLoad", onA);
            ("onNativeLoad", onN)] h;
     Some (mixinMethods, h)) = Some (mm, h4)
    ∧ objs h4
      = <[p := <["onNativeLoad" := onN]>
                 (<["onAfterLoad" := onA]>
                    (<["onBeforeLoad" := onB]>
                       (<["onLoad" := VFun FOnLoad]>
                          (<["data" := VObj ld]> pc))))]>
          (<[ld := map_fold mix_key nd (merged_mixin_data mvs)]> (objs h1))
    ∧ arrays_private (length (arrs h)) mm h4
    ∧ arrs h `prefix_of` arrs h4
    ∧ ∀ k, repr h4 (mm !! k) (acc_of k mvs).
Proof.
  intros Hp Hmvs Hpre Harrs Hld Hne.
  pose proof (read_mixins_grow _ _ _ _ Hpre Hmvs) as Hmvs1.
  unfold getMixinData. rewrite (getMixinData_from _ _ _ _ Hmvs1).
  cbn [mbind option_bind].
  destruct (getMixinMethods_spec _ _ _ Hmvs1)
    as (mm & h2 & -> & Hpriv & Hobjs & Hpre2 & Hrepr).
  cbn [mbind option_bind]. unfold mixData. rewrite Hobjs, Hld.
  cbn [mbind option_bind]. unfold assign. cbn [objs set_obj].
  rewrite Hobjs.
  assert (p < length (objs h1)) as Hplt.
  { eapply lookup_lt_Some, prefix_lookup_Some; eassumption. }
  rewrite list_lookup_insert_ne by done.
  rewrite (prefix_lookup_Some _ _ _ _ Hp Hpre).
  cbn [mbind option_bind foldl fst snd].
  eexists _, _. split; [done|]. cbn [objs arrs set_obj].
  split; [by rewrite Hobjs|]. rewrite <- Harrs.
  split; [exact Hpriv|]. split; [exact Hpre2|]. exact Hrepr.
Qed.

Lemma prepare_spec h p iv :
  read_input h p = Some iv →
  ∃ mm h1 ld,
    prepare p h = Some (mm, h1)
    ∧ ld ≠ p
    ∧ (if truthy (get (iv_page iv) "data")
       then get (iv_page iv) "data" = VObj ld
       else ld = length (objs h))
    ∧ objs h1 !! p = Some (entry_page ld (iv_page iv))
    ∧ objs h1 !! ld
      = Some (map_fold mix_key (iv_data iv) (merged_mixin_data (iv_mixins iv)))
    ∧ (∀ l, l ≠ p → l ≠ ld → objs h1 !! l = objs h !! l)
    ∧ arrays_private (length (arrs h)) mm h1
    ∧ arrs h `prefix_of` arrs h1
    ∧ ∀ k, repr h1 (mm !! k) (acc_of k (iv_mixins iv)).
Proof.
  intros Hr.
  destruct (read_input_Some _ _ _ Hr) as (Hp & (ms & Hms & Hmvs) & Hnd & Hself).
  destruct iv as [pc mvs nd]. cbn [iv_page iv_mixins iv_data] in *.
  assert (p < length (objs h)) as Hplt by by eapply lookup_lt_Some.
  unfold prepare. rewrite Hp. cbn [mbind option_bind]. rewrite Hms.
  cbn [mbind option_bind].
  destruct (truthy (get pc "data")) eqn:Htr.
  - destruct (get pc "data") as [| | | | | |ld|] eqn:Hd; try done.
    simpl in Hnd.
    destruct (prepare_tail h p pc ms mvs h ld nd (before_hook pc)
                (after_hook pc) (native_hook pc))
      as (mm & h4 & Hrun & Hobjs & Hpriv & Hpre & Hrepr); try done.
    { congruence. }
    assert (ld < length (objs h)) as Hldlt by by eapply lookup_lt_Some.
    exists mm, h4, ld. split; [exact Hrun|].
    split; [congruence|]. split; [done|].
    rewrite Hobjs. split; [|split; [|split; [|done]]].
    + rewrite list_lookup_insert_eq by (by rewrite length_insert). done.
    + rewrite list_lookup_insert_ne by congruence.
      by rewrite list_lookup_insert_eq.
    + intros l Hl1 Hl2. by rewrite !list_lookup_insert_ne.
  - injection Hnd as <-.
    destruct (prepare_tail h p pc ms mvs
                (Heap (objs h ++ [∅]) (arrs h)) (length (objs h)) ∅
                (before_hook pc) (after_hook pc) (native_hook pc))
      as (mm & h4 & Hrun & Hobjs & Hpriv & Hpre & Hrepr); try done.
    { by apply prefix_app_r. }
    { simpl. by rewrite lookup_app_r, Nat.sub_diag by lia. }
    { lia. }
    exists mm, h4, (length (objs h)). split; [exact Hrun|].
    split; [lia|]. split; [done|].
    rewrite Hobjs. cbn [objs].
    split; [|split; [|split; [|done]]].
    + rewrite list_lookup_insert_eq; [done|].
      rewrite length_insert, length_app. lia.
    + rewrite list_lookup_insert_ne by lia.
      rewrite list_lookup_insert_eq; [done|]. rewrite length_app. simpl. lia.
    + intros l Hl1 Hl2. rewrite !list_lookup_insert_ne by done.
      destruct (decide (l < length (objs h))).
      * by rewrite lookup_app_l.
      * rewrite !lookup_ge_None_2; [done|lia|].
        rewrite length_app. simpl. lia.
Qed.

(** ** The accumulated entry of one key, computed on the views *)

Lemma acc_lifecycle_off k m a :
  bool_decide (k ∈ PAGE_EVENT) && lifecycle_hit k m = false →
  acc_lifecycle k m a = a.
Proof. unfold acc_lifecycle. by intros ->. Qed.

Lemma acc_methods_off k mt a :
  isFunction (get mt k) = false → acc_methods k mt a = a.
Proof.
  unfold acc_methods, get. destruct (mt !! k) as [v|]; [|done].
  simpl. by intros ->.
Qed.

Lemma acc_of_onLoad mvs : acc_of "onLoad" mvs = ANone.
Proof.
  unfold acc_of. induction mvs as [|mv mvs IH] using rev_ind; [done|].
  rewrite foldl_app. simpl. rewrite IH. unfold acc_step.
  rewrite acc_lifecycle_off.
  - unfold acc_methods. destruct (mv_methods mv !! "onLoad"); [|done].
    by rewrite andb_false_r.
  - unfold lifecycle_hit. by rewrite !andb_false_r.
Qed.

(** Where no lifecycle property is collected under [k], the entry is the
    function given by the last [methods] mapping that has one. *)
Lemma acc_of_last_method k pre mv post v :
  k ≠ "onLoad" →
  Forall (λ mv', bool_decide (k ∈ PAGE_EVENT)
                 && lifecycle_hit k (mv_props mv') = false)
         (mv :: post) →
  mv_methods mv !! k = Some v →
  isFunction v = true →
  Forall (λ mv', isFunction (get (mv_methods mv') k) = false) post →
  acc_of k (pre ++ mv :: post) = ASingle v.
Proof.
  intros Hk Hoff Hv Hf Hpost. unfold acc_of. rewrite foldl_app. simpl.
  generalize (foldl (acc_step k) ANone pre). intros a.
  apply Forall_cons in Hoff as [Hoff1 Hoff].
  assert (acc_step k a mv = ASingle v) as ->.
  { unfold acc_step. rewrite acc_lifecycle_off by done.
    unfold acc_methods. rewrite Hv, Hf.
    by rewrite bool_decide_eq_true_2. }
  induction Hpost as [|mv' post Hmv' _ IH]; [done|].
  apply Forall_cons in Hoff as [Hoff1' Hoff]. simpl.
  unfold acc_step at 2. rewrite acc_lifecycle_off by done.
  rewrite acc_methods_off by done. by apply IH.
Qed.

Lemma last_definer (P : mixin_view → Prop) `{!∀ mv, Decision (P mv)}
    (mvs : list mixin_view) mv :
  mv ∈ mvs → P mv →
  ∃ pre mv' post, mvs = pre ++ mv' :: post ∧ P mv' ∧ Forall (λ x, ¬ P x) post.
Proof.
  induction mvs as [|x mvs IH] using rev_ind.
  - by intros ?%elem_of_nil.
  - intros Hin HP. destruct (decide (P x)) as [Hx|Hx].
    + exists mvs, x, []. by repeat split.
    + apply elem_of_app in Hin as [Hin|Hin%list_elem_of_singleton];
        [|by subst].
      destruct (IH Hin HP) as (pre & mv' & post & -> & Hmv' & Hpost).
      exists pre, mv', (post ++ [x]). split; [by rewrite <- app_assoc|].
      split; [done|]. apply Forall_app. split; [done|].
      by apply Forall_singleton.
Qed.

(** Where no [methods] mapping has a function under [k], the entry is
    the list of the top-level handlers, in mixin order. *)
Lemma acc_lifecycle_only k mvs a :
  k ∈ PAGE_EVENT → k ≠ "onLoad" →
  (∀ v, a ≠ ASingle v) →
  Forall (λ mv, isFunction (get (mv_methods mv) k) = false) mvs →
  foldl (acc_step k) a mvs
  = if decide (mixin_handlers k mvs = []) then a
    else AList (acc_elems a ++ (VFun <$> mixin_handlers k mvs)).
Proof.
  intros Hev Hk Ha Hoff. revert a Ha.
  induction Hoff as [|mv mvs Hmv _ IH]; intros a Ha; [done|].
  simpl. unfold mixin_handlers. simpl. fold (mixin_handlers k mvs).
  assert (acc_step k a mv
          = match as_func (get (mv_props mv) k) with
            | Some f => AList (acc_elems a ++ [VFun f])
            | None => a
            end) as Hstep.
  { unfold acc_step. rewrite acc_methods_off by done.
    unfold acc_lifecycle, lifecycle_hit.
    rewrite !bool_decide_eq_true_2 by done. simpl. rewrite andb_true_r.
    by destruct (get (mv_props mv) k). }
  rewrite Hstep. destruct (as_func (get (mv_props mv) k)) as [f|].
  - rewrite IH by done. simpl.
    destruct (decide (mixin_handlers k mvs = [])) as [->|_].
    + done.
    + by rewrite <- app_assoc.
  - by apply IH.
Qed.

Lemma acc_of_lifecycle_only k mvs :
  k ∈ PAGE_EVENT → k ≠ "onLoad" →
  Forall (λ mv, isFunction (get (mv_methods mv) k) = false) mvs →
  mixin_handlers k mvs ≠ [] →
  acc_of k mvs = AList (VFun <$> mixin_handlers k mvs).
Proof.
  intros Hev Hk Hoff Hne. unfold acc_of.
  rewrite acc_lifecycle_only by done. by rewrite decide_False.
Qed.

(** ** Names *)

Lemma PAGE_EVENT_not_slot k : k ∈ PAGE_EVENT → k ∉ ENTRY_SLOTS.
Proof.
  assert (Forall (λ k, k ∉ ENTRY_SLOTS) PAGE_EVENT) as HF by compute_done.
  rewrite Forall_forall in HF. apply HF.
Qed.

Lemma entry_page_other ld pc k :
  k ≠ "onLoad" → k ∉ ENTRY_SLOTS → entry_page ld pc !! k = pc !! k.
Proof.
  intros Hk Hs. unfold entry_page, ENTRY_SLOTS in *.
  rewrite !not_elem_of_cons in Hs. destruct Hs as (?&?&?&?&_).
  by rewrite !lookup_insert_ne.
Qed.

Lemma entry_page_slots ld pc :
  entry_page ld pc !! "data" = Some (VObj ld)
  ∧ entry_page ld pc !! "onLoad" = Some (VFun FOnLoad)
  ∧ entry_page ld pc !! "onBeforeLoad" = Some (before_hook pc)
  ∧ entry_page ld pc !! "onAfterLoad" = Some (after_hook pc)
  ∧ entry_page ld pc !! "onNativeLoad" = Some (native_hook pc).
Proof.
  unfold entry_page. repeat split.
  - rewrite !lookup_insert_ne by done. apply lookup_insert_eq.
  - rewrite !lookup_insert_ne by done. apply lookup_insert_eq.
  - rewrite !lookup_insert_ne by done. apply lookup_insert_eq.
  - rewrite !lookup_insert_ne by done. apply lookup_insert_eq.
  - apply lookup_insert_eq.
Qed.

(** ** The entry point as a whole *)

Lemma default_export_spec h p iv :
  read_input h p = Some iv →
  ∃ mm h1 ld h',
    prepare p h = Some (mm, h1)
    ∧ mixMethods mm p h1 = Some h'
    ∧ default_export p h = Some h'
    ∧ ld ≠ p
    ∧ (if truthy (get (iv_page iv) "data")
       then get (iv_page iv) "data" = VObj ld
       else ld = length (objs h))
    ∧ objs h1 !! p = Some (entry_page ld (iv_page iv))
    ∧ objs h1 !! ld
      = Some (map_fold mix_key (iv_data iv) (merged_mixin_data (iv_mixins iv)))
    ∧ (∀ l, l ≠ p → l ≠ ld → objs h1 !! l = objs h !! l)
    ∧ arrays_private (length (arrs h)) mm h1
    ∧ arrs h `prefix_of` arrs h1
    ∧ (∀ k, repr h1 (mm !! k) (acc_of k (iv_mixins iv)))
    ∧ mixed p (entry_page ld (iv_page iv)) h1 mm h'.
Proof.
  intros Hr.
  destruct (prepare_spec _ _ _ Hr)
    as (mm & h1 & ld & Hprep & Hne & Hld & Hp1 & Hd1 & Hframe & Hpriv
        & Hpre & Hrepr).
  destruct (mixMethods_spec _ _ _ _ _ Hp1 Hpriv) as (h' & Hmix & Hmixed).
  exists mm, h1, ld, h'. unfold default_export. rewrite Hprep.
  cbn [mbind option_bind]. done.
Qed.

(** ** Data *)



(** ** Ordinary methods *)

Lemma final_page h p iv :
  read_input h p = Some iv →
  ∃ (mm : gmap string value) h1 ld h' (pc' : gmap string value),
    default_export p h = Some h'
    ∧ objs h' !! p = Some pc'
    ∧ (∀ k, repr h1 (mm !! k) (acc_of k (iv_mixins iv)))
    ∧ (∀ k, pc' !! k = merged k (mm !! k) (entry_page ld (iv_page iv) !! k)).
Proof.
  intros Hr.
  destruct (default_export_spec _ _ _ Hr)
    as (mm & h1 & ld & h' & _ & _ & Hrun & _ & _ & Hp1 & _ & _ & _ & _
        & Hrepr & pc' & Hobjs & _ & Hpc & _).
  assert (p < length (objs h1)) as Hplt by by eapply lookup_lt_Some.
  exists mm, h1, ld, h', pc'. split; [done|].
  split; [by rewrite Hobjs, list_lookup_insert_eq|]. done.
Qed.



(** C4, as amended.  For a name that is neither a lifecycle event nor a
    slot the entry point assigns, and under which reading the page gives
    [undefined] or [null] (the page has no property of its own that says
    otherwise, and the name is not one that [Object.prototype] defines),
    the merged property is the function of the LAST mixin whose [methods]
    defines one under that name: in the collector later mixins overwrite
    earlier ones, and the method merge copies what the collector holds. *)
Theorem method_last_definer_wins h p iv k pre mv post f :
  read_input h p = Some iv →
  k ∉ PAGE_EVENT → k ∉ ENTRY_SLOTS →
  iv_mixins iv = pre ++ mv :: post →
  mv_methods mv !! k = Some (VFun f) →
  Forall (λ mv', isFunction (get (mv_methods mv') k) = false) post →
  reads_nullish (iv_page iv) k = true →
  ∃ (mm : gmap string value) h1 h' (pc' : gmap string value),
    prepare p h = Some (mm, h1)
    ∧ mm !! k = Some (VFun f)
    ∧ default_export p h = Some h'
    ∧ objs h' !! p = Some pc'
    ∧ pc' !! k = Some (VFun f).
Proof.
  intros Hr Hev Hslot Hmvs Hf Hpost Hnull.
  destruct (default_export_spec _ _ _ Hr)
    as (mm & h1 & ld & h' & Hprep & _ & Hrun & _ & _ & Hp1 & _ & _ & _ & _
        & Hrepr & pc' & Hobjs & _ & Hpc & _).
  assert (p < length (objs h1)) as Hplt by by eapply lookup_lt_Some.
  assert (k ≠ "onLoad") as Hk.
  { intros ->. apply Hev. compute_done. }
  assert (mm !! k = Some (VFun f)) as Hmm.
  { specialize (Hrepr k). rewrite Hmvs in Hrepr.
    rewrite (acc_of_last_method k pre mv post (VFun f)) in Hrepr; try done.
    - by destruct Hrepr.
    - apply Forall_forall. intros mv' _. by rewrite bool_decide_eq_false_2. }
  exists mm, h1, h', pc'. split; [done|]. split; [done|]. split; [done|].
  split; [by rewrite Hobjs, list_lookup_insert_eq|].
  rewrite Hpc, Hmm, entry_page_other by done. unfold merged.
  rewrite decide_False by done.
  rewrite reads_nullish_lookup in Hnull. by rewrite Hnull.
Qed.


(** C10. A lifecycle event other than [onLoad] that mixins define only
    inside [methods]: the collector holds a single function under that
    name, not a list, so the method merge skips it and the page keeps
    whatever it had under that name. *)
Theorem lifecycle_in_methods_dropped h p iv E mv f :
  read_input h p = Some iv →
  E ∈ PAGE_EVENT → E ≠ "onLoad" →
  mv ∈ iv_mixins iv →
  mv_methods mv !! E = Some (VFun f) →
  Forall (λ mv', isFunction (get (mv_props mv') E) = false) (iv_mixins iv) →
  ∃ (mm : gmap string value) h1 mv' g h' (pc' : gmap string value),
    prepare p h = Some (mm, h1)
    ∧ mv' ∈ iv_mixins iv
    ∧ mv_methods mv' !! E = Some (VFun g)
    ∧ mm !! E = Some (VFun g)
    ∧ default_export p h = Some h'
    ∧ objs h' !! p = Some pc'
    ∧ pc' !! E = iv_page iv !! E.
Proof.
  intros Hr Hev Hk Hin Hf Hoff.
  destruct (default_export_spec _ _ _ Hr)
    as (mm & h1 & ld & h' & Hprep & _ & Hrun & _ & _ & Hp1 & _ & _ & _ & _
        & Hrepr & pc' & Hobjs & _ & Hpc & _).
  assert (p < length (objs h1)) as Hplt by by eapply lookup_lt_Some.
  destruct (last_definer
              (λ mv, isFunction (get (mv_methods mv) E) = true)
              (iv_mixins iv) mv Hin)
    as (pre & mv' & post & Hmvs & Hmv' & Hpost).
  { unfold get. by rewrite Hf. }
  assert (∃ g, mv_methods mv' !! E = Some (VFun g)) as [g Hg].
  { unfold get in Hmv'. destruct (mv_methods mv' !! E) as [[]|]; try done.
    by eexists. }
  specialize (Hrepr E). rewrite Hmvs in Hrepr.
  rewrite (acc_of_last_method E pre mv' post (VFun g)) in Hrepr; try done.
  - destruct Hrepr as [Hmm _].
    exists mm, h1, mv', g, h', pc'. split; [done|].
    split; [rewrite Hmvs; apply elem_of_app; right; apply list_elem_of_here|].
    split; [done|]. split; [done|]. split; [done|].
    split; [by rewrite Hobjs, list_lookup_insert_eq|].
    rewrite Hpc, Hmm. unfold merged. rewrite decide_True by done.
    apply entry_page_other; [done|]. by apply PAGE_EVENT_not_slot.
  - rewrite Hmvs in Hoff. apply Forall_app in Hoff as [_ Hoff].
    eapply Forall_impl; [exact Hoff|]. intros x Hx. simpl in Hx.
    unfold lifecycle_hit. by rewrite Hx, andb_false_r.
  - eapply Forall_impl; [exact Hpost|]. intros x Hx. simpl in Hx.
    by destruct (isFunction (get (mv_methods x) E)).
Qed.

(** ** What the merge leaves alone *)

(** C9, as amended.  The merge writes to two objects only, the page
    configuration and the page's data mapping (the page's own one, or a
    new one); every other object, hence every mixin, mixin data mapping
    and mixin methods mapping that is not one of these two, is the same
    before and after, every array that existed before is unchanged, and
    the handler lists of the collector are newly allocated arrays. *)
Theorem merge_frame h p iv :
  read_input h p = Some iv →
  ∃ (mm : gmap string value) h1 ld h',
    prepare p h = Some (mm, h1)
    ∧ default_export p h = Some h'
    ∧ (if truthy (get (iv_page iv) "data")
       then get (iv_page iv) "data" = VObj ld
       else ld = length (objs h))
    ∧ (∀ l, l ≠ p → l ≠ ld → objs h' !! l = objs h !! l)
    ∧ (∀ mixin,
         VObj p ∉ mixin_cells h mixin → VObj ld ∉ mixin_cells h mixin →
         read_mixin h' mixin = read_mixin h mixin)
    ∧ (∀ l, l < length (arrs h) → arrs h' !! l = arrs h !! l)
    ∧ (∀ k l, mm !! k = Some (VArr l) → length (arrs h) ≤ l).
Proof.
  intros Hr.
  destruct (default_export_spec _ _ _ Hr)
    as (mm & h1 & ld & h' & Hprep & _ & Hrun & Hne & Hld & Hp1 & _ & Hframe
        & Hpriv & Hpre & _ & pc' & Hobjs & _ & _ & Hold & _).
  assert (∀ l, l ≠ p → l ≠ ld → objs h' !! l = objs h !! l) as Hframe'.
  { intros l Hl1 Hl2. rewrite Hobjs, list_lookup_insert_ne by done.
    by apply Hframe. }
  exists mm, h1, ld, h'. split; [done|]. split; [done|]. split; [done|].
  split; [done|]. split; [|split].
  - intros mixin Hp Hd. unfold mixin_cells in *.
    rewrite !not_elem_of_cons in Hp, Hd.
    destruct Hp as (Hm1 & Hd1 & Hmt1 & _), Hd as (Hm2 & Hd2 & Hmt2 & _).
    assert (∀ m k, VObj p ≠ get m k → VObj ld ≠ get m k →
                   view_field h' m k = view_field h m k) as Hfield.
    { intros m k Hk1 Hk2. unfold view_field, field_or_empty.
      destruct (get m k) as [| | | | | |l|]; try done. simpl.
      rewrite Hframe'; [done|congruence..]. }
    assert (props_of h' mixin = props_of h mixin) as Hprops.
    { destruct mixin; try done. simpl. apply Hframe'; congruence. }
    unfold read_mixin. rewrite Hprops.
    destruct (props_of h mixin) as [m|] eqn:Hm; [|done].
    assert (default ∅ (obj_at h mixin) = m) as Hdef.
    { destruct mixin; simpl in *; try congruence. by rewrite Hm. }
    rewrite Hdef in Hd1, Hmt1, Hd2, Hmt2.
    cbn [mbind option_bind]. by rewrite !Hfield.
  - intros l Hl.
    destruct (lookup_lt_is_Some_2 (arrs h) l Hl) as [es Hes].
    rewrite Hes, Hold.
    + by eapply prefix_lookup_Some.
    + intros k _ Hk. destruct Hpriv as (_ & Hrange & _).
      apply Hrange in Hk. lia.
  - intros k l Hk. destruct Hpriv as (_ & Hrange & _).
    apply Hrange in Hk. lia.
Qed.

(** ** Calls *)

Section InvocationFacts.
Context {W : Type}.
Variable user_fn : nat → value → list value → W → result value * W.
Implicit Types (rec : func → value → list value → M (W:=W) value).
Implicit Types (this v : value) (args : list value).

Lemma keeps_pure {A} (a : A) : keeps_objs (pure (W:=W) a).
Proof. by intros s r s' [= <- <-]. Qed.

Lemma keeps_throw {A} e : keeps_objs (throw (W:=W) (A:=A) e).
Proof. by intros s r s' [= <- <-]. Qed.

Lemma keeps_andThen {A B} (m : M (W:=W) A) (k : A → M (W:=W) B) :
  keeps_objs m → (∀ a, keeps_objs (k a)) → keeps_objs (andThen m k).
Proof.
  intros Hm Hk s r s'. unfold andThen.
  destruct (m s) as [[a|e|] s1] eqn:Hms.
  - intros Hks. rewrite (Hk _ _ _ _ Hks). by eapply Hm.
  - intros [= <- <-]. by eapply Hm.
  - intros [= <- <-]. by eapply Hm.
Qed.

Lemma keeps_thread (fs : list (callable (W:=W))) v :
  Forall (λ c, ∀ args, keeps_objs (c args)) fs → keeps_objs (thread fs v).
Proof.
  intros HF. revert v. induction HF as [|f fs Hf _ IH]; intros v; simpl.
  - apply keeps_pure.
  - apply keeps_andThen; [apply Hf|apply IH].
Qed.

Lemma keeps_run_in_order (fs : list (callable (W:=W))) args :
  Forall (λ c, ∀ args, keeps_objs (c args)) fs →
  keeps_objs (run_in_order fs args).
Proof.
  intros HF. destruct HF as [|f fs Hf HF]; simpl.
  - apply keeps_pure.
  - apply keeps_andThen; [apply Hf|]. intros a. by apply keeps_thread.
Qed.

Lemma keeps_compose (funcs : list (callable (W:=W))) args :
  Forall (λ c, ∀ args, keeps_objs (c args)) funcs →
  keeps_objs (compose funcs args).
Proof.
  intros HF s r s'. rewrite compose_run_in_order.
  apply keeps_run_in_order. by apply Forall_reverse.
Qed.

Lemma keeps_apply_value rec v this args :
  (∀ f this args, keeps_objs (rec f this args)) →
  keeps_objs (apply_value (W:=W) rec v this args).
Proof.
  intros Hrec. destruct v; simpl; try apply keeps_throw. apply Hrec.
Qed.

Lemma keeps_invoke rec this key args :
  (∀ f this args, keeps_objs (rec f this args)) →
  keeps_objs (invoke (W:=W) rec this key args).
Proof.
  intros Hrec s r s'. unfold invoke.
  destruct (obj_at s.1 this) as [o|].
  - by apply keeps_apply_value.
  - by intros [= <- <-].
Qed.

Lemma keeps_reverse_in_place l : keeps_objs (reverse_in_place (W:=W) l).
Proof.
  intros s r s'. unfold reverse_in_place.
  destruct (arrs s.1 !! l); by intros [= <- <-].
Qed.

Lemma bind_all_Some rec this fs cs :
  mapM (λ v, match v with
             | VFun f => Some (rec f this)
             | _ => None
             end) fs = Some cs →
  (∀ f this args, keeps_objs (rec f this args)) →
  Forall (λ c : callable (W:=W), ∀ args, keeps_objs (c args)) cs.
Proof.
  rewrite mapM_Some. intros HF Hrec.
  induction HF as [|v c fs cs Hv _ IH]; constructor; [|done].
  destruct v; try done. injection Hv as <-. intros args. apply Hrec.
Qed.

Lemma bind_all_funcs rec this (fs : list func) :
  bind_all (W:=W) rec this (VFun <$> fs) = pure ((λ f, rec f this) <$> fs).
Proof.
  unfold bind_all.
  assert (mapM (λ v, match v with
                     | VFun f => Some (rec f this)
                     | _ => None
                     end) (VFun <$> fs)
          = Some ((λ f, rec f this) <$> fs)) as ->; [|done].
  apply mapM_Some. induction fs; constructor; done.
Qed.

Lemma keeps_call n f this args : keeps_objs (call user_fn n f this args).
Proof.
  revert f this args. induction n as [|n IH]; intros f this args.
  { by intros s r s' [= <- <-]. }
  destruct f as [id| | |l]; cbn [call].
  - intros s r s'. destruct (user_fn id this args s.2) as [r1 w1].
    by intros [= <- <-].
  - apply keeps_pure.
  - repeat (apply keeps_andThen; [by apply keeps_invoke|intros _]).
    apply keeps_pure.
  - apply keeps_andThen; [apply keeps_reverse_in_place|]. intros reversed.
    unfold bind_all.
    destruct (mapM _ reversed) as [cs|] eqn:Hcs.
    + intros s r s'. unfold andThen at 1. unfold pure at 1.
      apply keeps_andThen; [|intros _; apply keeps_pure].
      apply keeps_compose. by eapply bind_all_Some.
    + intros s r s'. unfold andThen, throw. by intros [= <- <-].
Qed.

Lemma keeps_fire n page key args :
  keeps_objs (fire user_fn n page key args).
Proof. apply keeps_invoke. apply keeps_call. Qed.

(** The dispatcher closure: it reverses its list in place, then runs the
    list as it was before the reversal, first element first, and returns
    nothing. *)
Lemma call_dispatcher n l this args h w (fs : list func) :
  arrs h !! l = Some (VFun <$> fs) →
  call user_fn (S n) (FDispatcher l) this args (h, w)
  = andThen (run_in_order ((λ f, call user_fn n f this) <$> fs) args)
            (λ _, pure VUndefined)
            (set_arr l (reverse (VFun <$> fs)) h, w).
Proof.
  intros Hl. cbn [call]. unfold andThen at 1, reverse_in_place.
  cbn [fst snd]. rewrite Hl. rewrite <- fmap_reverse, bind_all_funcs.
  unfold andThen at 1, pure at 1.
  unfold andThen. rewrite compose_run_in_order.
  by rewrite <- fmap_reverse, reverse_involutive.
Qed.

Lemma call_dispatcher_undefined n l this args s v s' :
  call user_fn n (FDispatcher l) this args s = (Ok v, s') → v = VUndefined.
Proof.
  destruct n as [|n]; [done|]. cbn [call]. unfold andThen.
  destruct (reverse_in_place l s) as [[reversed|e|] s1]; try done.
  destruct (bind_all _ _ _ s1) as [[bound|e|] s2]; try done.
  destruct (compose _ _ s2) as [[a|e|] s3]; try done.
  by intros [= <- _].
Qed.

(** The load sequencer: three calls through the receiver's slots, each
    with [opts], results dropped. *)
Lemma call_onLoad n this opts s o :
  obj_at s.1 this = Some o →
  call user_fn (S n) FOnLoad this [opts] s
  = andThen (apply_value (call user_fn n) (get o "onBeforeLoad") this [opts])
      (λ _,
       andThen (apply_value (call user_fn n) (get o "onNativeLoad") this [opts])
         (λ _,
          andThen (apply_value (call user_fn n) (get o "onAfterLoad") this [opts])
            (λ _, pure VUndefined))) s.
Proof.
  intros Ho. cbn [call]. simpl.
  assert (∀ s1 key, objs s1.1 = objs s.1 →
            invoke (call user_fn n) this key [opts] s1
            = apply_value (call user_fn n) (get o key) this [opts] s1) as Hinv.
  { intros s1 key Hs1. unfold invoke.
    assert (obj_at s1.1 this = Some o) as ->; [|done].
    rewrite <- Ho. unfold obj_at. destruct this; try done. by rewrite Hs1. }
  assert (∀ v, keeps_objs (apply_value (call user_fn n) v this [opts]))
    as Hkeep.
  { intros v. apply keeps_apply_value. apply keeps_call. }
  unfold andThen. rewrite Hinv by done.
  destruct (apply_value _ (get o "onBeforeLoad") _ _ s) as [[a|e|] s1] eqn:H1;
    try done.
  apply Hkeep in H1. rewrite Hinv by done.
  destruct (apply_value _ (get o "onNativeLoad") _ _ s1) as [[a2|e|] s2] eqn:H2;
    try done.
  apply Hkeep in H2. rewrite Hinv by congruence. done.
Qed.

End InvocationFacts.

(** ** The load sequence *)

Lemma or_default_decide v d :
  or_default v d = if decide (v = VUndefined) then d else v.
Proof. by destruct v. Qed.

Lemma hook_not_nullish v :
  v ≠ VNull → is_nullish (or_default v (VFun FNoop)) = false.
Proof. by destruct v. Qed.

Lemma native_hook_not_nullish pc : is_nullish (native_hook pc) = false.
Proof.
  unfold native_hook. destruct (truthy (get pc "onLoad")) eqn:Ht; [|done].
  by destruct (get pc "onLoad").
Qed.

Lemma merged_kept k mo v :
  k ∉ PAGE_EVENT → is_nullish v = false → merged k mo (Some v) = Some v.
Proof.
  intros Hev Hv. unfold merged. destruct mo; [|done].
  rewrite decide_False by done. simpl. by rewrite Hv.
Qed.

Lemma load_slots h p iv :
  read_input h p = Some iv →
  get (iv_page iv) "onBeforeLoad" ≠ VNull →
  get (iv_page iv) "onAfterLoad" ≠ VNull →
  ∃ (mm : gmap string value) h1 (pc1 : gmap string value) h'
    (pc' : gmap string value),
    prepare p h = Some (mm, h1)
    ∧ objs h1 !! p = Some pc1
    ∧ pc1 !! "onBeforeLoad" = Some (before_hook (iv_page iv))
    ∧ pc1 !! "onAfterLoad" = Some (after_hook (iv_page iv))
    ∧ is_nullish (before_hook (iv_page iv)) = false
    ∧ is_nullish (after_hook (iv_page iv)) = false
    ∧ mm !! "onLoad" = None
    ∧ mixMethods mm p h1 = Some h'
    ∧ default_export p h = Some h'
    ∧ objs h' !! p = Some pc'
    ∧ pc' !! "onLoad" = Some (VFun FOnLoad)
    ∧ pc' !! "onBeforeLoad" = Some (before_hook (iv_page iv))
    ∧ pc' !! "onNativeLoad" = Some (native_hook (iv_page iv))
    ∧ pc' !! "onAfterLoad" = Some (after_hook (iv_page iv)).
Proof.
  intros Hr Hb Ha.
  destruct (default_export_spec _ _ _ Hr)
    as (mm & h1 & ld & h' & Hprep & Hmix & Hrun & _ & _ & Hp1 & _ & _ & _ & _
        & Hrepr & pc' & Hobjs & _ & Hpc & _).
  assert (p < length (objs h1)) as Hplt by by eapply lookup_lt_Some.
  destruct (entry_page_slots ld (iv_page iv)) as (_ & HL & HB & HA & HN).
  pose proof (hook_not_nullish _ Hb) as Hbn.
  pose proof (hook_not_nullish _ Ha) as Han.
  assert (mm !! "onLoad" = None) as HmL.
  { specialize (Hrepr "onLoad"). by rewrite acc_of_onLoad in Hrepr. }
  exists mm, h1, (entry_page ld (iv_page iv)), h', pc'.
  repeat (split; [done|]).
  split; [by rewrite Hobjs, list_lookup_insert_eq|].
  rewrite !Hpc, HL, HB, HA, HN, HmL.
  split; [done|].
  split; [apply merged_kept; [compute_done|done]|].
  split; [apply merged_kept; [compute_done|apply native_hook_not_nullish]|].
  apply merged_kept; [compute_done|done].
Qed.

Section LoadSequence.
Context {W : Type}.
Variable user_fn : nat → value → list value → W → result value * W.

Lemma fire_onLoad p (pc' : gmap string value) before native after hx n opts w :
  objs hx !! p = Some pc' →
  pc' !! "onLoad" = Some (VFun FOnLoad) →
  pc' !! "onBeforeLoad" = Some before →
  pc' !! "onNativeLoad" = Some native →
  pc' !! "onAfterLoad" = Some after →
  fire user_fn (S n) (VObj p) "onLoad" [opts] (hx, w)
  = andThen (apply_value (call user_fn n) before (VObj p) [opts])
      (λ _,
       andThen (apply_value (call user_fn n) native (VObj p) [opts])
         (λ _,
          andThen (apply_value (call user_fn n) after (VObj p) [opts])
            (λ _, pure VUndefined))) (hx, w).
Proof.
  intros Hp HL HB HN HA. unfold fire, invoke. cbn [fst obj_at].
  rewrite Hp. unfold get at 1. rewrite HL. cbn [from_option id apply_value].
  rewrite (call_onLoad user_fn n (VObj p) opts (hx, w) pc') by done.
  unfold get. by rewrite HB, HN, HA.
Qed.

Lemma fire_onLoad_args p (pc' : gmap string value) hx n args w :
  objs hx !! p = Some pc' →
  pc' !! "onLoad" = Some (VFun FOnLoad) →
  fire user_fn (S n) (VObj p) "onLoad" args (hx, w)
  = fire user_fn (S n) (VObj p) "onLoad" [default VUndefined (args !! 0)]
      (hx, w).
Proof.
  intros Hp HL. unfold fire, invoke. cbn [fst obj_at]. rewrite Hp.
  unfold get. rewrite HL. reflexivity.
Qed.

(** C6, as amended.  For a page whose own [onBeforeLoad] and
    [onAfterLoad] are not [null], the [onLoad] of the merged page calls
    three values in this order, each as a function on the page with the
    first call argument alone, and passes no result on: the page's own
    [onBeforeLoad], or the no-op where the page has none; the page's own
    [onLoad], or the no-op where that is falsy; the page's own
    [onAfterLoad], or the no-op where the page has none.  Nothing a mixin
    defines under [onLoad] takes part.  This holds at every invocation,
    since no invocation changes an object. *)
Theorem onLoad_sequence h p iv :
  read_input h p = Some iv →
  get (iv_page iv) "onBeforeLoad" ≠ VNull →
  get (iv_page iv) "onAfterLoad" ≠ VNull →
  ∃ (mm : gmap string value) h1 h' (pc' : gmap string value),
    prepare p h = Some (mm, h1)
    ∧ mm !! "onLoad" = None
    ∧ default_export p h = Some h'
    ∧ objs h' !! p = Some pc'
    ∧ pc' !! "onLoad" = Some (VFun FOnLoad)
    ∧ (∀ hx n args w,
         objs hx = objs h' →
         fire user_fn (S n) (VObj p) "onLoad" args (hx, w)
         = andThen
             (apply_value (call user_fn n)
                (if decide (get (iv_page iv) "onBeforeLoad" = VUndefined)
                 then VFun FNoop else get (iv_page iv) "onBeforeLoad")
                (VObj p) [default VUndefined (args !! 0)])
             (λ _,
              andThen
                (apply_value (call user_fn n)
                   (if truthy (get (iv_page iv) "onLoad")
                    then get (iv_page iv) "onLoad" else VFun FNoop)
                   (VObj p) [default VUndefined (args !! 0)])
                (λ _,
                 andThen
                   (apply_value (call user_fn n)
                      (if decide (get (iv_page iv) "onAfterLoad" = VUndefined)
                       then VFun FNoop else get (iv_page iv) "onAfterLoad")
                      (VObj p) [default VUndefined (args !! 0)])
                   (λ _, pure VUndefined))) (hx, w))
    ∧ (∀ n key args s r s',
         fire user_fn n (VObj p) key args s = (r, s') →
         objs s'.1 = objs s.1).
Proof.
  intros Hr Hb Ha.
  destruct (load_slots _ _ _ Hr Hb Ha)
    as (mm & h1 & pc1 & h' & pc' & Hprep & _ & _ & _ & _ & _ & HmL & _ & Hrun
        & Hp' & HL & HB & HN & HA).
  exists mm, h1, h', pc'. repeat (split; [done|]). split.
  - intros hx n args w Hhx.
    assert (objs hx !! p = Some pc') as Hpx by by rewrite Hhx.
    rewrite (fire_onLoad_args p pc') by done.
    rewrite <- !(or_default_decide _ (VFun FNoop)).
    by eapply fire_onLoad.
  - intros n key args. apply keeps_fire.
Qed.

(** C8, as amended.  For a page whose own [onBeforeLoad] and
    [onAfterLoad] are not [null], what a mixin defines under these names
    never reaches the page: when the method merge starts both slots
    already hold a value that is not null (the page's own, or the no-op
    where the page has none), the merge keeps them, and the load sequence
    calls exactly these. *)
Theorem mixin_load_hooks_ignored h p iv :
  read_input h p = Some iv →
  get (iv_page iv) "onBeforeLoad" ≠ VNull →
  get (iv_page iv) "onAfterLoad" ≠ VNull →
  ∃ (mm : gmap string value) h1 (pc1 : gmap string value) h'
    (pc' : gmap string value) before after,
    before = (if decide (get (iv_page iv) "onBeforeLoad" = VUndefined)
              then VFun FNoop else get (iv_page iv) "onBeforeLoad")
    ∧ after = (if decide (get (iv_page iv) "onAfterLoad" = VUndefined)
               then VFun FNoop else get (iv_page iv) "onAfterLoad")
    ∧ prepare p h = Some (mm, h1)
    ∧ objs h1 !! p = Some pc1
    ∧ pc1 !! "onBeforeLoad" = Some before
    ∧ pc1 !! "onAfterLoad" = Some after
    ∧ is_nullish before = false
    ∧ is_nullish after = false
    ∧ mixMethods mm p h1 = Some h'
    ∧ default_export p h = Some h'
    ∧ objs h' !! p = Some pc'
    ∧ pc' !! "onBeforeLoad" = Some before
    ∧ pc' !! "onAfterLoad" = Some after
    ∧ (∀ n args w,
         fire user_fn (S n) (VObj p) "onLoad" args (h', w)
         = andThen
             (apply_value (call user_fn n) before
                (VObj p) [default VUndefined (args !! 0)])
             (λ _,
              andThen
                (apply_value (call user_fn n)
                   (if truthy (get (iv_page iv) "onLoad")
                    then get (iv_page iv) "onLoad" else VFun FNoop)
                   (VObj p) [default VUndefined (args !! 0)])
                (λ _,
                 andThen
                   (apply_value (call user_fn n) after
                      (VObj p) [default VUndefined (args !! 0)])
                   (λ _, pure VUndefined))) (h', w)).
Proof.
  intros Hr Hb Ha.
  destruct (load_slots _ _ _ Hr Hb Ha)
    as (mm & h1 & pc1 & h' & pc' & Hprep & Hp1 & HB1 & HA1 & Hbn & Han & _
        & Hmix & Hrun & Hp' & HL & HB & HN & HA).
  exists mm, h1, pc1, h', pc', (before_hook (iv_page iv)),
    (after_hook (iv_page iv)).
  split; [apply or_default_decide|]. split; [apply or_default_decide|].
  repeat (split; [done|]).
  intros n args w. rewrite (fire_onLoad_args p pc') by done.
  by eapply fire_onLoad.
Qed.

(** ** The lifecycle dispatcher *)

(** C2, as amended.  For a lifecycle event other than [onLoad] that the
    mixins contribute through top-level handlers, the merged property is
    a dispatcher over the list of the mixin handlers, in mixin order,
    followed by the page's own handler if it has one.  Its first
    invocation runs that list in order, the first handler on the call
    arguments and each later one on the result of the one before, and
    then returns [undefined]: the last handler's result is dropped.  No
    invocation of the dispatcher returns anything but [undefined]. *)
Theorem dispatcher_discards_result h p iv E :
  read_input h p = Some iv →
  E ∈ PAGE_EVENT → E ≠ "onLoad" →
  Forall (λ mv, isFunction (get (mv_methods mv) E) = false) (iv_mixins iv) →
  mixin_handlers E (iv_mixins iv) ≠ [] →
  ∃ h' (pc' : gmap string value) l,
    default_export p h = Some h'
    ∧ objs h' !! p = Some pc'
    ∧ pc' !! E = Some (VFun (FDispatcher l))
    ∧ arrs h' !! l
      = Some (VFun <$> (mixin_handlers E (iv_mixins iv)
                        ++ page_handler E (iv_page iv)))
    ∧ (∀ n args w,
         fire user_fn (S n) (VObj p) E args (h', w)
         = andThen
             (run_in_order
                ((λ f, call user_fn n f (VObj p))
                   <$> (mixin_handlers E (iv_mixins iv)
                        ++ page_handler E (iv_page iv)))
                args)
             (λ _, pure VUndefined)
             (set_arr l
                (reverse (VFun <$> (mixin_handlers E (iv_mixins iv)
                                    ++ page_handler E (iv_page iv)))) h',
              w))
    ∧ (∀ hx n args w v s',
         objs hx = objs h' →
         fire user_fn n (VObj p) E args (hx, w) = (Ok v, s') →
         v = VUndefined).
Proof.
  intros Hr Hev Hk Hoff Hne.
  destruct (default_export_spec _ _ _ Hr)
    as (mm & h1 & ld & h' & _ & _ & Hrun & _ & _ & Hp1 & _ & _ & _ & _
        & Hrepr & pc' & Hobjs & _ & Hpc & _ & Hnew).
  assert (p < length (objs h1)) as Hplt by by eapply lookup_lt_Some.
  assert (objs h' !! p = Some pc') as Hp'
    by by rewrite Hobjs, list_lookup_insert_eq.
  specialize (Hrepr E). rewrite acc_of_lifecycle_only in Hrepr by done.
  destruct Hrepr as (l & Hmm & Hl).
  assert (pc' !! E = Some (VFun (FDispatcher l))) as HE.
  { rewrite Hpc, Hmm. unfold merged. by rewrite decide_True. }
  assert (arrs h' !! l
          = Some (VFun <$> (mixin_handlers E (iv_mixins iv)
                            ++ page_handler E (iv_page iv)))) as Hl'.
  { rewrite (Hnew E l Hev Hmm), Hl. simpl. f_equal.
    assert (get (entry_page ld (iv_page iv)) E = get (iv_page iv) E) as ->.
    { unfold get. rewrite entry_page_other; [done..|].
      by apply PAGE_EVENT_not_slot. }
    rewrite fmap_app. unfold page_handler.
    destruct (get (iv_page iv) E); simpl; by rewrite ?app_nil_r. }
  assert (∀ n args w,
    fire user_fn (S n) (VObj p) E args (h', w)
    = andThen
        (run_in_order
           ((λ f, call user_fn n f (VObj p))
              <$> (mixin_handlers E (iv_mixins iv)
                   ++ page_handler E (iv_page iv)))
           args)
        (λ _, pure VUndefined)
        (set_arr l
           (reverse (VFun <$> (mixin_handlers E (iv_mixins iv)
                               ++ page_handler E (iv_page iv)))) h',
         w)) as Hfire.
  { intros n args w. unfold fire, invoke. cbn [fst obj_at]. rewrite Hp'.
    unfold get. rewrite HE. cbn [from_option id apply_value].
    by apply call_dispatcher. }
  exists h', pc', l. repeat (split; [done|]).
  intros hx n args w v s' Hhx. unfold fire, invoke. cbn [fst obj_at].
  rewrite Hhx, Hp'. unfold get. rewrite HE. cbn [from_option id apply_value].
  apply call_dispatcher_undefined.
Qed.

End LoadSequence.

(** ** The sample inputs, evaluated *)

(** C1. The dispatcher installed under [onShow] for the sample page
    (mixin handlers 1 and 2, page handler 3), fired twice: the first
    invocation runs 1, 2, 3, with 1 on the call argument and each later
    handler on the result of the one before; the second invocation runs
    3, 2, 1, with the page's handler on the call arguments and the mixin
    handlers on the results, because the first invocation left the
    handler list reversed. *)
Theorem dispatcher_second_invocation_reversed :
  (h' ← default_export 0 sample_page;
   let '(r1, s1) := fire trace_fn 2 (VObj 0) "onShow" [VStr "x"] (h', []) in
   let '(r2, s2) := fire trace_fn 2 (VObj 0) "onShow" [VStr "y"] (s1.1, []) in
   Some (r1, s1.2, r2, s2.2))
  = Some (Ok VUndefined,
          [(1, VObj 0, [VStr "x"]); (2, VObj 0, [VNum 1]);
           (3, VObj 0, [VNum 2])],
          Ok VUndefined,
          [(3, VObj 0, [VStr "y"]); (2, VObj 0, [VNum 3]);
           (1, VObj 0, [VNum 2])]).
Proof. vm_compute. reflexivity. Qed.

(** C2, refuted as stated: on the sample page the merged [onShow] returns
    [undefined], although the page's handler, the last to run, returned 3. *)
Lemma dispatcher_result_counterexample :
  (h' ← default_export 0 sample_page;
   let '(r, s) := fire trace_fn 2 (VObj 0) "onShow" [VStr "x"] (h', []) in
   Some (r, last s.2))
  = Some (Ok VUndefined, Some (3, VObj 0, [VNum 2]))
  ∧ (trace_fn 3 (VObj 0) [VNum 2] []).1 = Ok (VNum 3)
  ∧ (h' ← default_export 0 sample_page;
     Some (fire trace_fn 2 (VObj 0) "onShow" [VStr "x"] (h', [])).1)
    ≠ Some (trace_fn 3 (VObj 0) [VNum 2] []).1.
Proof.
  split; [vm_compute; reflexivity|].
  split; [vm_compute; reflexivity|].
  vm_compute. discriminate.
Qed.

Lemma dispatcher_discards_result_witness :
  read_input sample_page 0 = Some sample_page_view
  ∧ ∃ h' (pc' : gmap string value) l,
      default_export 0 sample_page = Some h'
      ∧ objs h' !! 0 = Some pc'
      ∧ pc' !! "onShow" = Some (VFun (FDispatcher l))
      ∧ arrs h' !! l = Some [VFun (FUser 1); VFun (FUser 2); VFun (FUser 3)]
      ∧ (fire trace_fn 2 (VObj 0) "onShow" [VStr "x"] (h', [])).1
        = Ok VUndefined
      ∧ (fire trace_fn 2 (VObj 0) "onShow" [VStr "x"] (h', [])).2.2
        = [(1, VObj 0, [VStr "x"]); (2, VObj 0, [VNum 1]);
           (3, VObj 0, [VNum 2])].
Proof.
  split; [vm_compute; reflexivity|].
  destruct (dispatcher_discards_result trace_fn sample_page 0
              sample_page_view "onShow")
    as (h' & pc' & l & Hrun & Hp & HE & Hl & Hfire & _).
  - vm_compute. reflexivity.
  - compute_done.
  - discriminate.
  - repeat constructor.
  - vm_compute. discriminate.
  - exists h', pc', l. repeat (split; [assumption|]).
    pose proof (Hfire 1 [VStr "x"] []) as Heq. split.
    + eapply eq_trans; [exact (f_equal fst Heq)|]. vm_compute. reflexivity.
    + eapply eq_trans; [exact (f_equal (λ x, x.2.2) Heq)|].
      vm_compute. reflexivity.
Defined.




(** C6, refuted as stated: on the page [{ onBeforeLoad: null, onLoad: f10 }]
    the before-load slot stays [null], and the merged [onLoad] throws a
    TypeError at its first step: the page's own [onLoad] is never called. *)
Lemma null_before_hook_counterexample :
  read_input sample_null_before 0 = Some sample_null_before_view
  ∧ (h' ← default_export 0 sample_null_before; pc' ← objs h' !! 0;
     pc' !! "onBeforeLoad") = Some VNull
  ∧ (h' ← default_export 0 sample_null_before;
     let '(r, s) := fire trace_fn 3 (VObj 0) "onLoad" [VStr "q"] (h', []) in
     Some (r, s.2))
    = Some (Throw TypeError, [])
  ∧ (h' ← default_export 0 sample_null_before;
     let '(r, s) := fire trace_fn 3 (VObj 0) "onLoad" [VStr "q"] (h', []) in
     Some (r, s.2))
    ≠ Some (Ok VUndefined, [(10, VObj 0, [VStr "q"])]).
Proof.
  split; [vm_compute; reflexivity|].
  split; [vm_compute; reflexivity|].
  split; [vm_compute; reflexivity|].
  vm_compute. discriminate.
Qed.

(** C8, refuted as stated: on the page
    [{ onBeforeLoad: null, onLoad: f10, mixins: [m1] }] with
    [m1 = { methods: { onBeforeLoad: f5 } }] the before-load slot is null
    when the method merge starts, the merge installs the mixin's function
    5, and the load sequence calls it before the page's [onLoad]. *)
Lemma null_hook_counterexample :
  read_input sample_null_hook 0 = Some sample_null_hook_view
  ∧ (m1 ← head (iv_mixins sample_null_hook_view);
     mv_methods m1 !! "onBeforeLoad") = Some (VFun (FUser 5))
  ∧ ('(_, h1) ← prepare 0 sample_null_hook; pc1 ← objs h1 !! 0;
     pc1 !! "onBeforeLoad") = Some VNull
  ∧ (h' ← default_export 0 sample_null_hook; pc' ← objs h' !! 0;
     pc' !! "onBeforeLoad") = Some (VFun (FUser 5))
  ∧ (h' ← default_export 0 sample_null_hook;
     let '(r, s) := fire trace_fn 3 (VObj 0) "onLoad" [VStr "q"] (h', []) in
     Some (r, s.2))
    = Some (Ok VUndefined,
            [(5, VObj 0, [VStr "q"]); (10, VObj 0, [VStr "q"])]).
Proof.
  split; [vm_compute; reflexivity|].
  split; [vm_compute; reflexivity|].
  split; [vm_compute; reflexivity|].
  split; [vm_compute; reflexivity|].
  vm_compute. reflexivity.
Qed.

(** C4, refuted as stated: in the second sample the page has no [foo],
    the first mixin defines [foo] as function 1 and the second as
    function 2, and the merged [foo] is not the first mixin's. *)
Lemma first_definer_counterexample :
  read_input sample_methods 0 = Some sample_methods_view
  ∧ ("foo" ∉ PAGE_EVENT)
  ∧ iv_page sample_methods_view !! "foo" = None
  ∧ (m1 ← head (iv_mixins sample_methods_view); mv_methods m1 !! "foo")
    = Some (VFun (FUser 1))
  ∧ (h' ← default_export 0 sample_methods; pc' ← objs h' !! 0; pc' !! "foo")
    = Some (VFun (FUser 2))
  ∧ (h' ← default_export 0 sample_methods; pc' ← objs h' !! 0; pc' !! "foo")
    ≠ (m1 ← head (iv_mixins sample_methods_view); mv_methods m1 !! "foo").
Proof.
  split; [vm_compute; reflexivity|].
  split; [compute_done|].
  split; [vm_compute; reflexivity|].
  split; [vm_compute; reflexivity|].
  split; [vm_compute; reflexivity|].
  vm_compute. discriminate.
Qed.

Lemma method_last_definer_wins_witness :
  read_input sample_methods 0 = Some sample_methods_view
  ∧ ∃ (mm : gmap string value) h1 h' (pc' : gmap string value),
      prepare 0 sample_methods = Some (mm, h1)
      ∧ mm !! "foo" = Some (VFun (FUser 2))
      ∧ default_export 0 sample_methods = Some h'
      ∧ objs h' !! 0 = Some pc'
      ∧ pc' !! "foo" = Some (VFun (FUser 2)).
Proof.
  split; [vm_compute; reflexivity|].
  eapply (method_last_definer_wins sample_methods 0 sample_methods_view
            "foo" [_] _ [] (FUser 2)).
  - vm_compute. reflexivity.
  - compute_done.
  - compute_done.
  - reflexivity.
  - vm_compute. reflexivity.
  - constructor.
  - vm_compute. reflexivity.
Defined.


Lemma lifecycle_in_methods_dropped_witness :
  read_input sample_methods 0 = Some sample_methods_view
  ∧ ∃ (mm : gmap string value) h1 g h' (pc' : gmap string value),
      prepare 0 sample_methods = Some (mm, h1)
      ∧ mm !! "onReady" = Some (VFun g)
      ∧ default_export 0 sample_methods = Some h'
      ∧ objs h' !! 0 = Some pc'
      ∧ pc' !! "onReady" = None.
Proof.
  split; [vm_compute; reflexivity|].
  destruct (lifecycle_in_methods_dropped sample_methods 0 sample_methods_view
              "onReady"
              (MixinView
                 {[ "methods" := VObj 3; "onBeforeLoad" := VFun (FUser 6);
                    "onLoad" := VFun (FUser 11) ]}
                 ∅
                 {[ "foo" := VFun (FUser 1); "bar" := VFun (FUser 7);
                    "onReady" := VFun (FUser 4); "onLoad" := VFun (FUser 12);
                    "onBeforeLoad" := VFun (FUser 13) ]})
              (FUser 4))
    as (mm & h1 & mv' & g & h' & pc' & Hprep & _ & _ & Hmm & Hrun & Hp & HE).
  - vm_compute. reflexivity.
  - compute_done.
  - discriminate.
  - apply list_elem_of_here.
  - vm_compute. reflexivity.
  - repeat constructor.
  - exists mm, h1, g, h', pc'. repeat (split; [assumption|]).
    rewrite HE. vm_compute. reflexivity.
Defined.

(** C9, refuted as stated: the third sample page uses the data object of
    its first mixin as its own data, and after the merge that mixin's
    data mapping has gained the key [b] of the second mixin. *)
Lemma shared_data_counterexample :
  read_input sample_shared 0 = Some sample_shared_view
  ∧ arrs sample_shared !! 0 = Some [VObj 1; VObj 2]
  ∧ (mv ← read_mixin sample_shared (VObj 1); Some (mv_data mv !! "b"))
    = Some None
  ∧ (h' ← default_export 0 sample_shared;
     mv' ← read_mixin h' (VObj 1);
     Some (mv_data mv' !! "b"))
    = Some (Some (VNum 2))
  ∧ (h' ← default_export 0 sample_shared;
     mv' ← read_mixin h' (VObj 1);
     Some (mv_data mv' !! "b"))
    ≠ (mv ← read_mixin sample_shared (VObj 1); Some (mv_data mv !! "b")).
Proof.
  split; [vm_compute; reflexivity|].
  split; [vm_compute; reflexivity|].
  split; [vm_compute; reflexivity|].
  split; [vm_compute; reflexivity|].
  vm_compute. discriminate.
Qed.

Lemma merge_frame_witness :
  read_input sample_page 0 = Some sample_page_view
  ∧ ∃ h',
      default_export 0 sample_page = Some h'
      ∧ read_mixin h' (VObj 1) = read_mixin sample_page (VObj 1)
      ∧ read_mixin h' (VObj 2) = read_mixin sample_page (VObj 2)
      ∧ arrs h' !! 0 = Some [VObj 1; VObj 2].
Proof.
  split; [vm_compute; reflexivity|].
  destruct (merge_frame sample_page 0 sample_page_view)
    as (mm & h1 & ld & h' & _ & Hrun & Hld & _ & Hmix & Harr & _);
    [vm_compute; reflexivity|].
  vm_compute in Hld. injection Hld as <-.
  exists h'. split; [assumption|].
  split; [apply Hmix; compute_done|].
  split; [apply Hmix; compute_done|].
  rewrite Harr; [reflexivity|]. vm_compute. lia.
Defined.

Lemma onLoad_sequence_witness :
  read_input sample_methods 0 = Some sample_methods_view
  ∧ ∃ h',
      default_export 0 sample_methods = Some h'
      ∧ fire trace_fn 2 (VObj 0) "onLoad" [VStr "q"] (h', [])
        = (Ok VUndefined, (h', [(10, VObj 0, [VStr "q"])])).
Proof.
  split; [vm_compute; reflexivity|].
  destruct (onLoad_sequence trace_fn sample_methods 0 sample_methods_view)
    as (mm & h1 & h' & pc' & _ & _ & Hrun & _ & _ & Hfire & _).
  - vm_compute. reflexivity.
  - vm_compute. discriminate.
  - vm_compute. discriminate.
  - exists h'. split; [assumption|].
    eapply eq_trans; [exact (Hfire h' 1 [VStr "q"] [] eq_refl)|].
    vm_compute. reflexivity.
Defined.

Lemma mixin_load_hooks_ignored_witness :
  read_input sample_methods 0 = Some sample_methods_view
  ∧ ∃ h' (pc' : gmap string value),
      default_export 0 sample_methods = Some h'
      ∧ objs h' !! 0 = Some pc'
      ∧ pc' !! "onBeforeLoad" = Some (VFun FNoop)
      ∧ pc' !! "onAfterLoad" = Some (VFun FNoop).
Proof.
  split; [vm_compute; reflexivity|].
  destruct (mixin_load_hooks_ignored trace_fn sample_methods 0
              sample_methods_view)
    as (mm & h1 & pc1 & h' & pc' & before & after & -> & -> & _ & _ & _ & _
        & _ & _ & _ & Hrun & Hp & HB & HA & _).
  - vm_compute. reflexivity.
  - vm_compute. discriminate.
  - vm_compute. discriminate.
  - exists h', pc'. split; [exact Hrun|]. split; [exact Hp|].
    split; [rewrite HB|rewrite HA]; vm_compute; reflexivity.
Defined.

(** * Further properties of the code *)

(** ** The composer, continued *)

Section ComposeLaws.
Context {W : Type}.

Lemma andThen_ext_l {A B} (m m' : M (W:=W) A) (k : A → M (W:=W) B) s :
  m s = m' s → andThen m k s = andThen m' k s.
Proof. unfold andThen. by intros ->. Qed.

Lemma thread_app (fs gs : list (callable (W:=W))) v s :
  thread (fs ++ gs) v s = andThen (thread fs v) (thread gs) s.
Proof.
  revert v s. induction fs as [|f fs IH]; intros v s; simpl.
  - done.
  - rewrite andThen_assoc. apply andThen_ext. intros a s'. apply IH.
Qed.

Lemma run_in_order_one (fs : list (callable (W:=W))) v s :
  run_in_order fs [v] s = thread fs v s.
Proof. by destruct fs. Qed.

(** X1. Composing a concatenation is composing the compositions:
    [compose(...fs, ...gs)] first runs [compose(...gs)] on the call
    arguments and then [compose(...fs)] on its result, whenever [gs] is
    not empty. *)
Theorem compose_app (fs : list (callable (W:=W))) g gs args s :
  compose (fs ++ g :: gs) args s
  = andThen (compose (g :: gs) args) (λ v, compose fs [v]) s.
Proof.
  rewrite compose_run_in_order, reverse_app.
  transitivity
    (andThen (run_in_order (reverse (g :: gs)) args)
             (λ v, compose fs [v]) s);
    [|apply andThen_ext_l; symmetry; apply compose_run_in_order].
  transitivity
    (andThen (run_in_order (reverse (g :: gs)) args)
             (thread (reverse fs)) s).
  - destruct (reverse (g :: gs)) as [|x xs] eqn:Hrev.
    { apply (f_equal length) in Hrev. rewrite length_reverse in Hrev.
      done. }
    simpl. rewrite andThen_assoc. apply andThen_ext. intros a s'.
    apply thread_app.
  - apply andThen_ext. intros v s'.
    by rewrite compose_run_in_order, run_in_order_one.
Qed.

(** X2. An exception raised by the last function of the list, the one
    that runs first, is the outcome of the composed call: none of the other
    functions runs. *)
Theorem compose_throws (rest : list (callable (W:=W))) last args s e s' :
  last args s = (Throw e, s') →
  compose (rest ++ [last]) args s = (Throw e, s').
Proof.
  intros Hlast. rewrite compose_run_in_order, reverse_snoc. simpl.
  unfold andThen. by rewrite Hlast.
Qed.

End ComposeLaws.

(** ** The collector, continued *)

Lemma acc_of_nothing k (mvs : list mixin_view) :
  Forall (λ mv, isFunction (get (mv_methods mv) k) = false) mvs →
  Forall (λ mv, bool_decide (k ∈ PAGE_EVENT)
                && isFunction (get (mv_props mv) k) = false) mvs →
  acc_of k mvs = ANone.
Proof.
  unfold acc_of. intros Hm Hp.
  induction mvs as [|mv mvs IH] using rev_ind; [done|].
  apply Forall_app in Hm as [Hm Hm1]. apply Forall_app in Hp as [Hp Hp1].
  rewrite Forall_singleton in Hm1. rewrite Forall_singleton in Hp1.
  rewrite foldl_app. simpl. rewrite IH by done. unfold acc_step.
  rewrite acc_methods_off by done. apply acc_lifecycle_off.
  unfold lifecycle_hit. rewrite andb_assoc, Hp1. done.
Qed.

Lemma acc_lifecycle_any k mvs a :
  k ∈ PAGE_EVENT → k ≠ "onLoad" →
  Forall (λ mv, isFunction (get (mv_methods mv) k) = false) mvs →
  foldl (acc_step k) a mvs
  = if decide (mixin_handlers k mvs = []) then a
    else AList (acc_elems a ++ (VFun <$> mixin_handlers k mvs)).
Proof.
  intros Hev Hk Hoff. revert a.
  induction Hoff as [|mv mvs Hmv _ IH]; intros a; [done|].
  simpl. unfold mixin_handlers. simpl. fold (mixin_handlers k mvs).
  assert (acc_step k a mv
          = match as_func (get (mv_props mv) k) with
            | Some f => AList (acc_elems a ++ [VFun f])
            | None => a
            end) as Hstep.
  { unfold acc_step. rewrite acc_methods_off by done.
    unfold acc_lifecycle, lifecycle_hit.
    rewrite !bool_decide_eq_true_2 by done. simpl. rewrite andb_true_r.
    by destruct (get (mv_props mv) k). }
  rewrite Hstep, IH. destruct (as_func (get (mv_props mv) k)) as [f|].
  - simpl. destruct (decide (mixin_handlers k mvs = [])) as [->|_].
    + done.
    + by rewrite <- app_assoc.
  - done.
Qed.

Lemma acc_after_methods_entry k a mv post g :
  k ∈ PAGE_EVENT → k ≠ "onLoad" →
  mv_methods mv !! k = Some (VFun g) →
  Forall (λ mv', isFunction (get (mv_methods mv') k) = false) post →
  foldl (acc_step k) a (mv :: post)
  = if decide (mixin_handlers k (mv :: post) = []) then ASingle (VFun g)
    else AList (VFun <$> mixin_handlers k (mv :: post)).
Proof.
  intros Hev Hk Hg Hpost. simpl. rewrite acc_lifecycle_any by done.
  unfold mixin_handlers at 3 4. simpl. fold (mixin_handlers k post).
  assert (acc_step k a mv
          = match as_func (get (mv_props mv) k) with
            | Some f => AList [VFun f]
            | None => ASingle (VFun g)
            end) as ->.
  { unfold acc_step, acc_methods. rewrite Hg. simpl.
    rewrite bool_decide_eq_true_2 by done.
    unfold acc_lifecycle, lifecycle_hit.
    rewrite !bool_decide_eq_true_2 by done. simpl. rewrite andb_true_r.
    by destruct (get (mv_props mv) k). }
  destruct (as_func (get (mv_props mv) k)) as [f|]; simpl.
  - by destruct (decide (mixin_handlers k post = [])) as [->|_].
  - by destruct (decide (mixin_handlers k post = [])).
Qed.

Lemma acc_step_good k a mv : acc_good k a → acc_good k (acc_step k a mv).
Proof.
  intros Ha. unfold acc_step, acc_lifecycle.
  assert (acc_good k (acc_methods k (mv_methods mv) a)) as Ha1.
  { unfold acc_methods. destruct (mv_methods mv !! k) as [v|]; [|done].
    destruct (isFunction v && bool_decide (k ≠ "onLoad")); [|done].
    by intros es. }
  destruct (bool_decide (k ∈ PAGE_EVENT)
            && lifecycle_hit k (mv_props mv)) eqn:Hc; [|done].
  apply andb_true_iff in Hc as [Hev Hhit]. apply bool_decide_eq_true in Hev.
  unfold lifecycle_hit in Hhit. apply andb_true_iff in Hhit as [Hf _].
  intros es [= <-]. split; [done|]. split.
  - by destruct (acc_elems _).
  - apply Forall_app. split; [|by apply Forall_singleton].
    destruct (acc_methods k (mv_methods mv) a) as [| |es'] eqn:Hes;
      simpl; try done.
    by apply (Ha1 es').
Qed.

Lemma acc_of_good k mvs : acc_good k (acc_of k mvs).
Proof.
  unfold acc_of. induction mvs as [|mv mvs IH] using rev_ind.
  - by intros es.
  - rewrite foldl_app. simpl. by apply acc_step_good.
Qed.

Lemma functions_are_VFun (es : list value) :
  Forall (λ v, isFunction v = true) es → ∃ fs, es = VFun <$> fs.
Proof.
  induction 1 as [|v es Hv _ [fs ->]]; [by exists []|].
  destruct v; try done. by eexists (_ :: _).
Qed.

(** Where the collector holds a handler list under [E], the merged page
    holds a dispatcher over that list, extended by the page's handler. *)
Lemma final_dispatcher h p iv E hs :
  read_input h p = Some iv →
  E ∈ PAGE_EVENT →
  acc_of E (iv_mixins iv) = AList (VFun <$> hs) →
  ∃ (mm : gmap string value) h1 h' (pc' : gmap string value) l,
    prepare p h = Some (mm, h1)
    ∧ mm !! E = Some (VArr l)
    ∧ default_export p h = Some h'
    ∧ objs h' !! p = Some pc'
    ∧ pc' !! E = Some (VFun (FDispatcher l))
    ∧ arrs h' !! l = Some (VFun <$> (hs ++ page_handler E (iv_page iv))).
Proof.
  intros Hr Hev Hacc.
  assert (E ≠ "onLoad") as Hk.
  { intros ->. by rewrite acc_of_onLoad in Hacc. }
  destruct (default_export_spec _ _ _ Hr)
    as (mm & h1 & ld & h' & Hprep & _ & Hrun & _ & _ & Hp1 & _ & _ & _ & _
        & Hrepr & pc' & Hobjs & _ & Hpc & _ & Hnew).
  assert (p < length (objs h1)) as Hplt by by eapply lookup_lt_Some.
  specialize (Hrepr E). rewrite Hacc in Hrepr.
  destruct Hrepr as (l & Hmm & Hl).
  exists mm, h1, h', pc', l. repeat (split; [done|]).
  split; [by rewrite Hobjs, list_lookup_insert_eq|]. split.
  - rewrite Hpc, Hmm. unfold merged. by rewrite decide_True.
  - rewrite (Hnew E l Hev Hmm), Hl. simpl. f_equal.
    assert (get (entry_page ld (iv_page iv)) E = get (iv_page iv) E) as ->.
    { unfold get. rewrite entry_page_other; [done..|].
      by apply PAGE_EVENT_not_slot. }
    rewrite fmap_app. unfold page_handler.
    destruct (get (iv_page iv) E); simpl; by rewrite ?app_nil_r.
Qed.

(** X3. A function under a lifecycle name in a mixin's [methods] resets
    the handlers collected so far under that name: the dispatcher runs
    only the top-level handlers of that mixin and of the mixins after it
    (then the page's), or, if these have none, nothing is installed at
    all.  The handlers of the mixins before it are lost either way. *)
Theorem methods_entry_resets_handlers h p iv E pre mv post g :
  read_input h p = Some iv →
  E ∈ PAGE_EVENT → E ≠ "onLoad" →
  iv_mixins iv = pre ++ mv :: post →
  mv_methods mv !! E = Some (VFun g) →
  Forall (λ mv', isFunction (get (mv_methods mv') E) = false) post →
  ∃ h' (pc' : gmap string value),
    default_export p h = Some h'
    ∧ objs h' !! p = Some pc'
    ∧ (mixin_handlers E (mv :: post) = [] → pc' !! E = iv_page iv !! E)
    ∧ (mixin_handlers E (mv :: post) ≠ [] →
       ∃ l, pc' !! E = Some (VFun (FDispatcher l))
            ∧ arrs h' !! l
              = Some (VFun <$> (mixin_handlers E (mv :: post)
                                ++ page_handler E (iv_page iv)))).
Proof.
  intros Hr Hev Hk Hmvs Hg Hpost.
  assert (acc_of E (iv_mixins iv)
          = if decide (mixin_handlers E (mv :: post) = [])
            then ASingle (VFun g)
            else AList (VFun <$> mixin_handlers E (mv :: post))) as Hacc.
  { unfold acc_of. rewrite Hmvs, foldl_app.
    by apply acc_after_methods_entry. }
  destruct (decide (mixin_handlers E (mv :: post) = [])) as [Hnil|Hne].
  - destruct (final_page _ _ _ Hr)
      as (mm & h1 & ld & h' & pc' & Hrun & Hp' & Hrepr & Hpc).
    exists h', pc'. split; [done|]. split; [done|]. split; [|done].
    intros _. specialize (Hrepr E). rewrite Hacc in Hrepr.
    destruct Hrepr as [Hmm _]. rewrite Hpc, Hmm. unfold merged.
    rewrite decide_True by done.
    apply entry_page_other; [done|]. by apply PAGE_EVENT_not_slot.
  - destruct (final_dispatcher _ _ _ _ _ Hr Hev Hacc)
      as (mm & h1 & h' & pc' & l & _ & _ & Hrun & Hp' & HE & Hl).
    exists h', pc'. split; [done|]. split; [done|]. split; [done|].
    intros _. by exists l.
Qed.

(** X4. Every handler list of the collector is kept under a lifecycle
    name and becomes, on the merged page, a dispatcher over a non-empty
    array of functions: binding the handlers never fails. *)
Theorem dispatchers_hold_functions h p iv :
  read_input h p = Some iv →
  ∃ (mm : gmap string value) h1 h' (pc' : gmap string value),
    prepare p h = Some (mm, h1)
    ∧ default_export p h = Some h'
    ∧ objs h' !! p = Some pc'
    ∧ ∀ k l, mm !! k = Some (VArr l) →
        k ∈ PAGE_EVENT
        ∧ pc' !! k = Some (VFun (FDispatcher l))
        ∧ ∃ fs, fs ≠ [] ∧ arrs h' !! l = Some (VFun <$> fs).
Proof.
  intros Hr.
  destruct (default_export_spec _ _ _ Hr)
    as (mm & h1 & ld & h' & Hprep & _ & Hrun & _ & _ & Hp1 & _ & _ & _ & _
        & Hrepr & pc' & Hobjs & _ & Hpc & _ & Hnew).
  assert (p < length (objs h1)) as Hplt by by eapply lookup_lt_Some.
  exists mm, h1, h', pc'. repeat (split; [done|]).
  split; [by rewrite Hobjs, list_lookup_insert_eq|].
  intros k l Hmm. specialize (Hrepr k).
  pose proof (acc_of_good k (iv_mixins iv)) as Hgood.
  destruct (acc_of k (iv_mixins iv)) as [|v|es] eqn:Hacc; simpl in Hrepr.
  - congruence.
  - destruct Hrepr as [Hv Hf]. rewrite Hmm in Hv. injection Hv as <-. done.
  - destruct Hrepr as (l' & Hl' & Hes). rewrite Hmm in Hl'.
    injection Hl' as <-.
    destruct (Hgood es eq_refl) as (Hev & Hne & Hfun).
    destruct (functions_are_VFun es Hfun) as [fs ->].
    split; [done|]. split.
    { rewrite Hpc, Hmm. unfold merged. by rewrite decide_True. }
    rewrite (Hnew k l Hev Hmm), Hes. simpl.
    destruct (get (entry_page ld (iv_page iv)) k) as [| | | | |f| |] eqn:Hg;
      simpl; try (exists fs; split; [by destruct fs|done]).
    exists (fs ++ [f]). split; [by destruct fs|]. by rewrite fmap_app.
Qed.

(** X5. A property of the page under which no mixin contributes a
    function, neither in [methods] nor, for a lifecycle name, at top
    level, is the same after the merge; in particular a lifecycle handler
    that only the page defines is left as it is, not wrapped. *)
Theorem page_property_untouched h p iv k :
  read_input h p = Some iv →
  k ≠ "onLoad" → k ∉ ENTRY_SLOTS →
  Forall (λ mv, isFunction (get (mv_methods mv) k) = false) (iv_mixins iv) →
  Forall (λ mv, bool_decide (k ∈ PAGE_EVENT)
                && isFunction (get (mv_props mv) k) = false)
         (iv_mixins iv) →
  ∃ h' (pc' : gmap string value),
    default_export p h = Some h'
    ∧ objs h' !! p = Some pc'
    ∧ pc' !! k = iv_page iv !! k.
Proof.
  intros Hr Hk Hslot Hm Hp.
  destruct (final_page _ _ _ Hr)
    as (mm & h1 & ld & h' & pc' & Hrun & Hp' & Hrepr & Hpc).
  exists h', pc'. split; [done|]. split; [done|].
  specialize (Hrepr k). rewrite acc_of_nothing in Hrepr by done.
  simpl in Hrepr. rewrite Hpc, Hrepr. simpl. by apply entry_page_other.
Qed.

(** ** Data, continued *)

Lemma final_data h p iv :
  read_input h p = Some iv →
  ∃ h' (pc' : gmap string value) ld,
    default_export p h = Some h'
    ∧ objs h' !! p = Some pc'
    ∧ pc' !! "data" = Some (VObj ld)
    ∧ (if truthy (get (iv_page iv) "data")
       then get (iv_page iv) "data" = VObj ld
       else ld = length (objs h))
    ∧ objs h' !! ld
      = Some (map_fold mix_key (iv_data iv) (merged_mixin_data (iv_mixins iv))).
Proof.
  intros Hr.
  destruct (default_export_spec _ _ _ Hr)
    as (mm & h1 & ld & h' & _ & _ & Hrun & Hne & Hld & Hp1 & Hd1 & _ & _ & _
        & _ & pc' & Hobjs & _ & Hpc & _).
  assert (p < length (objs h1)) as Hplt by by eapply lookup_lt_Some.
  exists h', pc', ld. split; [done|].
  split; [by rewrite Hobjs, list_lookup_insert_eq|]. split.
  { rewrite Hpc. destruct (entry_page_slots ld (iv_page iv)) as [-> _].
    apply merged_kept; [compute_done|done]. }
  split; [done|]. by rewrite Hobjs, list_lookup_insert_ne.
Qed.

(** X6. The merged page keeps its own data object: where the page has a
    (truthy) [data], the [data] slot still holds that very object, which
    has been extended in place; otherwise it holds a newly allocated one. *)
Theorem data_object_identity h p iv :
  read_input h p = Some iv →
  ∃ h' (pc' : gmap string value),
    default_export p h = Some h'
    ∧ objs h' !! p = Some pc'
    ∧ pc' !! "data"
      = Some (if truthy (get (iv_page iv) "data")
              then get (iv_page iv) "data"
              else VObj (length (objs h))).
Proof.
  intros Hr.
  destruct (final_data _ _ _ Hr) as (h' & pc' & ld & Hrun & Hp' & Hd & Hld & _).
  exists h', pc'. split; [done|]. split; [done|]. rewrite Hd.
  destruct (truthy (get (iv_page iv) "data")); by rewrite Hld.
Qed.

(** X7. A key that the page's data holds with the value [undefined] does
    not shadow the mixins: the merged data takes the value of the last
    mixin that defines the key. *)
Theorem undefined_page_value_overwritten h p iv k pre mv post v :
  read_input h p = Some iv →
  iv_data iv !! k = Some VUndefined →
  iv_mixins iv = pre ++ mv :: post →
  mv_data mv !! k = Some v →
  Forall (λ mv', mv_data mv' !! k = None) post →
  ∃ h' (pc' : gmap string value) ld (fd : gmap string value),
    default_export p h = Some h'
    ∧ objs h' !! p = Some pc'
    ∧ pc' !! "data" = Some (VObj ld)
    ∧ objs h' !! ld = Some fd
    ∧ fd !! k = Some v.
Proof.
  intros Hr Hk Hmvs Hv Hpost.
  destruct (final_data _ _ _ Hr) as (h' & pc' & ld & Hrun & Hp' & Hd & _ & Hfd).
  exists h', pc', ld,
    (map_fold mix_key (iv_data iv) (merged_mixin_data (iv_mixins iv))).
  repeat (split; [done|]).
  rewrite mix_key_lookup, reads_undefined_lookup, Hk.
  rewrite bool_decide_eq_true_2 by done.
  unfold merged_mixin_data.
  by rewrite (merged_data_last _ _ _ _ _ _ _ Hmvs Hv Hpost).
Qed.

Lemma mix_key_fold_idem (nd md : gmap string value) :
  map_fold mix_key (map_fold mix_key nd md) md = map_fold mix_key nd md.
Proof.
  apply map_eq. intros k. rewrite mix_key_lookup.
  destruct (reads_undefined (map_fold mix_key nd md) k) eqn:Hu; [|done].
  destruct (md !! k) as [v|] eqn:Hmd; [|done].
  rewrite mix_key_lookup, Hmd.
  destruct (reads_undefined nd k) eqn:Hn; [done|].
  rewrite reads_undefined_lookup, mix_key_lookup, Hn in Hu.
  rewrite reads_undefined_lookup in Hn. congruence.
Qed.

(** X8. [mixData] is idempotent: merging the same mixin data into the
    same data object a second time changes nothing. *)
Theorem mixData_idempotent md v h v' h' :
  mixData md v h = Some (v', h') → mixData md v' h' = Some (v', h').
Proof.
  unfold mixData. destruct v as [| | | | | |l|]; try done.
  destruct (objs h !! l) as [nd|] eqn:Hl; [|done].
  cbn [mbind option_bind]. intros [= <- <-]. cbn [objs set_obj].
  rewrite list_lookup_insert_eq by by eapply lookup_lt_Some.
  cbn [mbind option_bind]. rewrite mix_key_fold_idem.
  unfold set_obj. cbn [objs arrs]. by rewrite list_insert_insert_eq.
Qed.

(** ** Pages without mixins *)

Lemma prepare_no_mixins h p iv :
  read_input h p = Some iv →
  iv_mixins iv = [] →
  ∃ hx, prepare p h = Some (∅, hx) ∧ arrs hx = arrs h.
Proof.
  intros Hr Hnil.
  destruct (read_input_Some _ _ _ Hr) as (Hp & (ms & Hms & Hmvs) & Hnd & Hself).
  rewrite Hnil in Hmvs. apply mapM_Some, Forall2_nil_inv_r in Hmvs as ->.
  assert (p < length (objs h)) as Hplt by by eapply lookup_lt_Some.
  unfold prepare. rewrite Hp. cbn [mbind option_bind]. rewrite Hms.
  cbn [mbind option_bind].
  destruct (truthy (get (iv_page iv) "data")) eqn:Htr.
  - destruct (get (iv_page iv) "data") as [| | | | | |ld|] eqn:Hd; try done.
    simpl in Hnd. cbn [getMixinData getMixinMethods forEach mbind option_bind].
    unfold mixData. rewrite Hnd. cbn [mbind option_bind].
    unfold assign. cbn [objs set_obj].
    rewrite list_lookup_insert_ne by congruence. rewrite Hp.
    cbn [mbind option_bind]. by eexists.
  - cbn [alloc_obj getMixinData getMixinMethods forEach mbind option_bind].
    unfold mixData. cbn [objs].
    rewrite lookup_app_r, Nat.sub_diag by lia.
    cbn [lookup list_lookup mbind option_bind].
    unfold assign. cbn [objs set_obj].
    rewrite list_lookup_insert_ne by lia.
    rewrite lookup_app_l, Hp by done.
    cbn [mbind option_bind]. by eexists.
Qed.

(** X9. On a page without mixins the merge only assigns the five slots
    [data], [onLoad], [onBeforeLoad], [onAfterLoad] and [onNativeLoad]:
    every other property of the page, the contents of its data, every
    other object and every array are left as they were, and no array is
    allocated. *)
Theorem merge_without_mixins h p iv :
  read_input h p = Some iv →
  iv_mixins iv = [] →
  ∃ h' ld,
    default_export p h = Some h'
    ∧ arrs h' = arrs h
    ∧ objs h' !! p = Some (entry_page ld (iv_page iv))
    ∧ objs h' !! ld = Some (iv_data iv)
    ∧ (∀ l, l ≠ p → l ≠ ld → objs h' !! l = objs h !! l).
Proof.
  intros Hr Hnil.
  destruct (prepare_no_mixins _ _ _ Hr Hnil) as (hx & Hprep & Harrs).
  destruct (prepare_spec _ _ _ Hr)
    as (mm & h1 & ld & Hprep' & Hne & _ & Hp1 & Hd1 & Hframe & _).
  rewrite Hprep in Hprep'. injection Hprep' as <- <-.
  exists hx, ld. split.
  { unfold default_export. rewrite Hprep. cbn [mbind option_bind].
    unfold mixMethods. apply map_fold_empty. }
  split; [done|]. split; [done|]. split; [|done].
  rewrite Hd1, Hnil. f_equal.
Qed.

(** ** What is not defaulted *)








(** X11. A page that sets [onBeforeLoad] or [onAfterLoad] to null is not
    given the no-op: the slot stays null until the method merge, which
    then installs the function that the last mixin defines under that
    name in its [methods]. *)
Theorem null_hook_takes_mixin_method h p iv k pre mv post f :
  read_input h p = Some iv →
  k ∈ ["onBeforeLoad"; "onAfterLoad"] →
  get (iv_page iv) k = VNull →
  iv_mixins iv = pre ++ mv :: post →
  mv_methods mv !! k = Some (VFun f) →
  Forall (λ mv', isFunction (get (mv_methods mv') k) = false) post →
  ∃ h' (pc' : gmap string value),
    default_export p h = Some h'
    ∧ objs h' !! p = Some pc'
    ∧ pc' !! k = Some (VFun f).
Proof.
  intros Hr Hk Hnull Hmvs Hf Hpost.
  destruct (final_page _ _ _ Hr)
    as (mm & h1 & ld & h' & pc' & Hrun & Hp' & Hrepr & Hpc).
  exists h', pc'. split; [done|]. split; [done|].
  assert ((k ∉ PAGE_EVENT) ∧ k ≠ "onLoad"
          ∧ entry_page ld (iv_page iv) !! k = Some VNull)
    as (Hev & Hne & Hslot).
  { destruct (entry_page_slots ld (iv_page iv)) as (_ & _ & HB & HA & _).
    unfold before_hook, after_hook in *.
    rewrite !elem_of_cons in Hk. destruct Hk as [->|[->|Hk]].
    - rewrite Hnull in HB. split; [compute_done|]. by split.
    - rewrite Hnull in HA. split; [compute_done|]. by split.
    - by apply elem_of_nil in Hk. }
  specialize (Hrepr k). rewrite Hmvs in Hrepr.
  rewrite (acc_of_last_method k pre mv post (VFun f)) in Hrepr; try done.
  - destruct Hrepr as [Hmm _]. rewrite Hpc, Hmm, Hslot. unfold merged.
    by rewrite decide_False.
  - apply Forall_forall. intros mv' _. by rewrite bool_decide_eq_false_2.
Qed.

Section LoadEdges.
Context {W : Type}.
Variable user_fn : nat → value → list value → W → result value * W.

(** X12. With a null [onBeforeLoad] on the page and no function under
    that name in any mixin's [methods], the merged [onLoad] throws a
    TypeError at its first step: neither the page's [onLoad] nor the
    after-load hook is called. *)
Theorem null_before_hook_throws h p iv :
  read_input h p = Some iv →
  get (iv_page iv) "onBeforeLoad" = VNull →
  Forall (λ mv, isFunction (get (mv_methods mv) "onBeforeLoad") = false)
         (iv_mixins iv) →
  ∃ h',
    default_export p h = Some h'
    ∧ ∀ n opts w,
        fire user_fn (S n) (VObj p) "onLoad" [opts] (h', w)
        = (Throw TypeError, (h', w)).
Proof.
  intros Hr Hnull Hoff.
  destruct (final_page _ _ _ Hr)
    as (mm & h1 & ld & h' & pc' & Hrun & Hp' & Hrepr & Hpc).
  exists h'. split; [done|]. intros n opts w.
  destruct (entry_page_slots ld (iv_page iv)) as (_ & HL & HB & _).
  assert (pc' !! "onLoad" = Some (VFun FOnLoad)) as HL'.
  { specialize (Hrepr "onLoad"). rewrite acc_of_onLoad in Hrepr.
    simpl in Hrepr. by rewrite Hpc, Hrepr, HL. }
  assert (pc' !! "onBeforeLoad" = Some VNull) as HB'.
  { specialize (Hrepr "onBeforeLoad").
    rewrite acc_of_nothing in Hrepr; [|done|].
    - simpl in Hrepr. rewrite Hpc, Hrepr, HB. unfold before_hook.
      by rewrite Hnull.
    - apply Forall_forall. intros mv _.
      by rewrite bool_decide_eq_false_2 by compute_done. }
  unfold fire, invoke. cbn [fst obj_at]. rewrite Hp'.
  unfold get at 1. rewrite HL'. cbn [from_option id apply_value].
  rewrite (call_onLoad user_fn n (VObj p) opts (h', w) pc') by done.
  unfold get. by rewrite HB'.
Qed.

Lemma onLoad_never_returns n this args s (o : gmap string value) v :
  obj_at s.1 this = Some o →
  get o "onNativeLoad" = VFun FOnLoad →
  (call user_fn n FOnLoad this args s).1 ≠ Ok v.
Proof.
  revert args s v. induction n as [|n IH]; intros args s v Ho Hn; [done|].
  cbn [call]. unfold andThen.
  destruct (invoke (call user_fn n) this "onBeforeLoad" _ s)
    as [[a|e|] s1] eqn:H1; try done.
  assert (obj_at s1.1 this = Some o) as Ho1.
  { apply keeps_invoke in H1; [|apply keeps_call].
    rewrite <- Ho. unfold obj_at. destruct this; try done. by rewrite H1. }
  unfold invoke at 1. rewrite Ho1, Hn. cbn [apply_value].
  destruct (call user_fn n FOnLoad this _ s1) as [[a2|e|] s2] eqn:H2;
    try done.
  exfalso. eapply (IH _ s1 a2); [done..|]. by rewrite H2.
Qed.

(** X13. The merge must not be applied to a page that was merged before:
    the second merge takes the installed sequencer for the page's own
    [onLoad], so the sequencer calls itself, and no invocation of the
    resulting [onLoad] completes normally. *)
Theorem remerged_onLoad_never_returns h p iv :
  read_input h p = Some iv →
  get (iv_page iv) "onLoad" = VFun FOnLoad →
  ∃ h',
    default_export p h = Some h'
    ∧ ∀ hx n opts w v,
        objs hx = objs h' →
        (fire user_fn n (VObj p) "onLoad" [opts] (hx, w)).1 ≠ Ok v.
Proof.
  intros Hr Hload.
  destruct (final_page _ _ _ Hr)
    as (mm & h1 & ld & h' & pc' & Hrun & Hp' & Hrepr & Hpc).
  exists h'. split; [done|]. intros hx n opts w v Hhx.
  destruct (entry_page_slots ld (iv_page iv)) as (_ & HL & _ & _ & HN).
  assert (pc' !! "onLoad" = Some (VFun FOnLoad)) as HL'.
  { specialize (Hrepr "onLoad"). rewrite acc_of_onLoad in Hrepr.
    simpl in Hrepr. by rewrite Hpc, Hrepr, HL. }
  assert (pc' !! "onNativeLoad" = Some (VFun FOnLoad)) as HN'.
  { rewrite Hpc, HN. unfold native_hook. rewrite Hload. simpl.
    apply merged_kept; [compute_done|done]. }
  unfold fire, invoke. cbn [fst obj_at]. rewrite Hhx, Hp'.
  unfold get. rewrite HL'. cbn [from_option id apply_value].
  apply (onLoad_never_returns n (VObj p) [opts] (hx, w) pc').
  - simpl. by rewrite Hhx.
  - unfold get. by rewrite HN'.
Qed.

End LoadEdges.

(** ** The dispatcher across invocations *)

Section DispatcherOrder.
Context {W : Type}.
Variable user_fn : nat → value → list value → W → result value * W.

Lemma store_andThen {A B} (m : M (W:=W) A) (k : A → M (W:=W) B) :
  keeps_store m → (∀ a, keeps_store (k a)) → keeps_store (andThen m k).
Proof.
  intros Hm Hk s r s'. unfold andThen.
  destruct (m s) as [[a|e|] s1] eqn:Hms.
  - intros Hks. rewrite (Hk _ _ _ _ Hks). by eapply Hm.
  - intros [= <- <-]. by eapply Hm.
  - intros [= <- <-]. by eapply Hm.
Qed.

Lemma store_thread (fs : list (callable (W:=W))) v :
  Forall (λ c, ∀ args, keeps_store (c args)) fs → keeps_store (thread fs v).
Proof.
  intros HF. revert v. induction HF as [|f fs Hf _ IH]; intros v; simpl.
  - by intros s r s' [= <- <-].
  - apply store_andThen; [apply Hf|apply IH].
Qed.

Lemma store_run_in_order (fs : list (callable (W:=W))) args :
  Forall (λ c, ∀ args, keeps_store (c args)) fs →
  keeps_store (run_in_order fs args).
Proof.
  intros HF. destruct HF as [|f fs Hf HF]; simpl.
  - by intros s r s' [= <- <-].
  - apply store_andThen; [apply Hf|]. intros a. by apply store_thread.
Qed.

Lemma store_call_user n f this args :
  is_user f = true → keeps_store (call user_fn n f this args).
Proof.
  intros Hf s r s'. destruct n as [|n]; [by intros [= <- <-]|].
  destruct f as [id| | |l]; try done; cbn [call].
  - destruct (user_fn id this args s.2) as [r1 w1]. by intros [= <- <-].
  - by intros [= <- <-].
Qed.

Lemma store_run_users n this (fs : list func) args :
  forallb is_user fs = true →
  keeps_store
    (run_in_order ((λ f, call user_fn n f this) <$> fs) args).
Proof.
  intros Hfs. apply store_run_in_order. apply Forall_fmap.
  apply Is_true_true, forallb_True in Hfs. eapply Forall_impl; [exact Hfs|].
  intros f Hf args'. apply store_call_user. by apply Is_true_true.
Qed.

(** X14. The handler order alternates.  The dispatcher reverses its list
    in place at each invocation: one invocation over the list [fs] (of
    functions of the user) leaves the list reversed, and the invocation
    after it runs [fs] from its last element to its first and leaves the
    list as it was at the start. *)
Theorem dispatcher_alternates n l this args h w (fs : list func) :
  arrs h !! l = Some (VFun <$> fs) →
  forallb is_user fs = true →
  ∃ r w1,
    call user_fn (S n) (FDispatcher l) this args (h, w)
    = (r, (set_arr l (reverse (VFun <$> fs)) h, w1))
    ∧ ∀ args2,
        call user_fn (S n) (FDispatcher l) this args2
          (set_arr l (reverse (VFun <$> fs)) h, w1)
        = andThen
            (run_in_order ((λ f, call user_fn n f this) <$> reverse fs) args2)
            (λ _, pure VUndefined)
            (set_arr l (VFun <$> fs) h, w1).
Proof.
  intros Hl Hfs.
  assert (l < length (arrs h)) as Hlt by by eapply lookup_lt_Some.
  rewrite (call_dispatcher user_fn n l this args h w fs Hl).
  unfold andThen at 1.
  destruct (run_in_order _ args (set_arr l (reverse (VFun <$> fs)) h, w))
    as [r0 [h1 w1]] eqn:Hrun.
  pose proof (store_run_users n this fs args Hfs _ _ _ Hrun) as Hh1.
  simpl in Hh1. subst h1.
  exists (match r0 with Ok _ => Ok VUndefined | Throw e => Throw e
                        | Diverge => Diverge end), w1.
  split; [by destruct r0|]. intros args2.
  rewrite (call_dispatcher user_fn n l this args2 _ w1 (reverse fs)).
  - rewrite (fmap_reverse VFun), reverse_involutive. unfold set_arr.
    cbn [objs arrs]. by rewrite list_insert_insert_eq.
  - cbn [arrs set_arr]. rewrite list_lookup_insert_eq by done.
    by rewrite (fmap_reverse VFun).
Qed.

(** X15. A dispatcher over a list that reads the same in both directions,
    in particular over a single handler, leaves the store as it is and runs
    the list in order: its behaviour is the same at every invocation. *)
Theorem symmetric_dispatcher_is_stable n l this args h w (fs : list func) :
  arrs h !! l = Some (VFun <$> fs) →
  reverse fs = fs →
  call user_fn (S n) (FDispatcher l) this args (h, w)
  = andThen (run_in_order ((λ f, call user_fn n f this) <$> fs) args)
            (λ _, pure VUndefined) (h, w).
Proof.
  intros Hl Hsym.
  rewrite (call_dispatcher user_fn n l this args h w fs Hl).
  assert (set_arr l (reverse (VFun <$> fs)) h = h) as ->; [|done].
  rewrite <- fmap_reverse, Hsym. destruct h as [os a]. unfold set_arr.
  cbn [objs arrs] in *. by rewrite list_insert_id.
Qed.

End DispatcherOrder.

(** ** The further properties on the sample inputs *)

Lemma compose_throws_witness :
  compose (W:=trace)
    ([call trace_fn 1 (FUser 1) VUndefined] ++ [λ _, throw (VStr "boom")])
    [VNum 0] (Heap [] [], [])
  = (Throw (VStr "boom"), (Heap [] [], [])).
Proof.
  apply compose_throws. reflexivity.
Defined.

Lemma methods_entry_resets_handlers_witness :
  read_input sample_shadow 0 = Some sample_shadow_view
  ∧ ∃ h' (pc' : gmap string value) l,
      default_export 0 sample_shadow = Some h'
      ∧ objs h' !! 0 = Some pc'
      ∧ pc' !! "onShow" = Some (VFun (FDispatcher l))
      ∧ arrs h' !! l = Some [VFun (FUser 2); VFun (FUser 3)].
Proof.
  split; [vm_compute; reflexivity|].
  destruct (methods_entry_resets_handlers sample_shadow 0
              sample_shadow_view "onShow"
              [MixinView {[ "onShow" := VFun (FUser 1) ]} ∅ ∅]
              (MixinView {[ "methods" := VObj 3; "onShow" := VFun (FUser 2) ]}
                         ∅ {[ "onShow" := VFun (FUser 7) ]})
              [] (FUser 7))
    as (h' & pc' & Hrun & Hpc & _ & Hl).
  - vm_compute. reflexivity.
  - compute_done.
  - discriminate.
  - reflexivity.
  - vm_compute. reflexivity.
  - constructor.
  - destruct Hl as (l & Hk & Ha); [vm_compute; discriminate|].
    exists h', pc', l.
    split; [exact Hrun|]. split; [exact Hpc|]. split; [exact Hk|].
    rewrite Ha. vm_compute. reflexivity.
Defined.

Lemma dispatchers_hold_functions_witness :
  read_input sample_page 0 = Some sample_page_view
  ∧ ∃ (mm : gmap string value) h1 h' (pc' : gmap string value),
      prepare 0 sample_page = Some (mm, h1)
      ∧ default_export 0 sample_page = Some h'
      ∧ objs h' !! 0 = Some pc'
      ∧ ∀ k l, mm !! k = Some (VArr l) →
          k ∈ PAGE_EVENT
          ∧ pc' !! k = Some (VFun (FDispatcher l))
          ∧ ∃ fs, fs ≠ [] ∧ arrs h' !! l = Some (VFun <$> fs).
Proof.
  split; [vm_compute; reflexivity|].
  apply (dispatchers_hold_functions sample_page 0 sample_page_view).
  vm_compute. reflexivity.
Defined.

Lemma page_property_untouched_witness :
  read_input sample_shadow 0 = Some sample_shadow_view
  ∧ ∃ h' (pc' : gmap string value),
      default_export 0 sample_shadow = Some h'
      ∧ objs h' !! 0 = Some pc'
      ∧ pc' !! "onHide" = Some (VFun (FUser 4)).
Proof.
  split; [vm_compute; reflexivity|].
  destruct (page_property_untouched sample_shadow 0 sample_shadow_view
              "onHide")
    as (h' & pc' & Hrun & Hpc & Hk).
  - vm_compute. reflexivity.
  - discriminate.
  - compute_done.
  - unfold sample_shadow_view. cbn [iv_mixins].
    repeat (constructor; [vm_compute; reflexivity|]). constructor.
  - unfold sample_shadow_view. cbn [iv_mixins].
    repeat (constructor; [vm_compute; reflexivity|]). constructor.
  - exists h', pc'. split; [exact Hrun|]. split; [exact Hpc|].
    rewrite Hk. vm_compute. reflexivity.
Defined.

Lemma data_object_identity_witness :
  read_input sample_page 0 = Some sample_page_view
  ∧ ∃ h' (pc' : gmap string value),
      default_export 0 sample_page = Some h'
      ∧ objs h' !! 0 = Some pc'
      ∧ pc' !! "data" = Some (VObj 3).
Proof.
  split; [vm_compute; reflexivity|].
  destruct (data_object_identity sample_page 0 sample_page_view)
    as (h' & pc' & Hrun & Hpc & Hd); [vm_compute; reflexivity|].
  exists h', pc'. split; [exact Hrun|]. split; [exact Hpc|].
  rewrite Hd. vm_compute. reflexivity.
Defined.

Lemma undefined_page_value_overwritten_witness :
  read_input sample_undefined 0 = Some sample_undefined_view
  ∧ ∃ h' (pc' : gmap string value) ld (fd : gmap string value),
      default_export 0 sample_undefined = Some h'
      ∧ objs h' !! 0 = Some pc'
      ∧ pc' !! "data" = Some (VObj ld)
      ∧ objs h' !! ld = Some fd
      ∧ fd !! "a" = Some (VNum 5).
Proof.
  split; [vm_compute; reflexivity|].
  eapply (undefined_page_value_overwritten sample_undefined 0
            sample_undefined_view "a" [] _ [] (VNum 5)).
  - vm_compute. reflexivity.
  - vm_compute. reflexivity.
  - reflexivity.
  - vm_compute. reflexivity.
  - constructor.
Defined.

Lemma mixData_idempotent_witness :
  mixData {[ "a" := VNum 2; "b" := VNum 2 ]} (VObj 0)
    (Heap [ {[ "a" := VNum 1 ]} ] [])
  = Some (VObj 0, Heap [ {[ "a" := VNum 1; "b" := VNum 2 ]} ] [])
  ∧ mixData {[ "a" := VNum 2; "b" := VNum 2 ]} (VObj 0)
      (Heap [ {[ "a" := VNum 1; "b" := VNum 2 ]} ] [])
    = Some (VObj 0, Heap [ {[ "a" := VNum 1; "b" := VNum 2 ]} ] []).
Proof.
  assert (mixData {[ "a" := VNum 2; "b" := VNum 2 ]} (VObj 0)
            (Heap [ {[ "a" := VNum 1 ]} ] [])
          = Some (VObj 0, Heap [ {[ "a" := VNum 1; "b" := VNum 2 ]} ] []))
    as Hfirst by (vm_compute; reflexivity).
  split; [exact Hfirst|].
  exact (mixData_idempotent _ _ _ _ _ Hfirst).
Defined.

Lemma merge_without_mixins_witness :
  read_input sample_plain 0 = Some sample_plain_view
  ∧ ∃ h' ld,
      default_export 0 sample_plain = Some h'
      ∧ arrs h' = arrs sample_plain
      ∧ objs h' !! 0 = Some (entry_page ld (iv_page sample_plain_view))
      ∧ objs h' !! ld = Some (iv_data sample_plain_view)
      ∧ (∀ l, l ≠ 0 → l ≠ ld → objs h' !! l = objs sample_plain !! l).
Proof.
  split; [vm_compute; reflexivity|].
  apply (merge_without_mixins sample_plain 0 sample_plain_view).
  - vm_compute. reflexivity.
  - reflexivity.
Defined.


Lemma null_hook_takes_mixin_method_witness :
  read_input sample_null_hook 0 = Some sample_null_hook_view
  ∧ ∃ h' (pc' : gmap string value),
      default_export 0 sample_null_hook = Some h'
      ∧ objs h' !! 0 = Some pc'
      ∧ pc' !! "onBeforeLoad" = Some (VFun (FUser 5)).
Proof.
  split; [vm_compute; reflexivity|].
  eapply (null_hook_takes_mixin_method sample_null_hook 0
            sample_null_hook_view "onBeforeLoad" [] _ [] (FUser 5)).
  - vm_compute. reflexivity.
  - compute_done.
  - vm_compute. reflexivity.
  - reflexivity.
  - vm_compute. reflexivity.
  - constructor.
Defined.

Lemma null_before_hook_throws_witness :
  read_input sample_null_before 0 = Some sample_null_before_view
  ∧ ∃ h',
      default_export 0 sample_null_before = Some h'
      ∧ ∀ n opts w,
          fire trace_fn (S n) (VObj 0) "onLoad" [opts] (h', w)
          = (Throw TypeError, (h', w)).
Proof.
  split; [vm_compute; reflexivity|].
  apply (null_before_hook_throws trace_fn sample_null_before 0
           sample_null_before_view).
  - vm_compute. reflexivity.
  - vm_compute. reflexivity.
  - constructor.
Defined.

Lemma remerged_onLoad_never_returns_witness :
  default_export 0 sample_page = Some sample_merged
  ∧ read_input sample_merged 0 = Some sample_merged_view
  ∧ ∃ h',
      default_export 0 sample_merged = Some h'
      ∧ ∀ hx n opts w v,
          objs hx = objs h' →
          (fire trace_fn n (VObj 0) "onLoad" [opts] (hx, w)).1 ≠ Ok v.
Proof.
  split; [vm_compute; reflexivity|].
  split; [vm_compute; reflexivity|].
  apply (remerged_onLoad_never_returns trace_fn sample_merged 0
           sample_merged_view).
  - vm_compute. reflexivity.
  - vm_compute. reflexivity.
Defined.

Lemma dispatcher_alternates_witness :
  ∃ r w1,
    call trace_fn 2 (FDispatcher 0) (VObj 0) [VNum 7]
      (Heap [∅] [[VFun (FUser 1); VFun (FUser 2)]], [])
    = (r, (Heap [∅] [[VFun (FUser 2); VFun (FUser 1)]], w1))
    ∧ ∀ args2,
        call trace_fn 2 (FDispatcher 0) (VObj 0) args2
          (Heap [∅] [[VFun (FUser 2); VFun (FUser 1)]], w1)
        = andThen
            (run_in_order
               ((λ f, call trace_fn 1 f (VObj 0)) <$> [FUser 2; FUser 1])
               args2)
            (λ _, pure VUndefined)
            (Heap [∅] [[VFun (FUser 1); VFun (FUser 2)]], w1).
Proof.
  apply (dispatcher_alternates trace_fn 1 0 (VObj 0) [VNum 7]
           (Heap [∅] [[VFun (FUser 1); VFun (FUser 2)]]) []
           [FUser 1; FUser 2]).
  - reflexivity.
  - reflexivity.
Defined.

Lemma symmetric_dispatcher_is_stable_witness :
  call trace_fn 2 (FDispatcher 0) (VObj 0) [VNum 7]
    (Heap [∅] [[VFun (FUser 1)]], [])
  = andThen
      (run_in_order ((λ f, call trace_fn 1 f (VObj 0)) <$> [FUser 1])
         [VNum 7])
      (λ _, pure VUndefined)
      (Heap [∅] [[VFun (FUser 1)]], []).
Proof.
  apply (symmetric_dispatcher_is_stable trace_fn 1 0 (VObj 0) [VNum 7]
           (Heap [∅] [[VFun (FUser 1)]]) [] [FUser 1]).
  - reflexivity.
  - reflexivity.
Defined.
